(** * providers/webcrypto/sign.ts: the WebCrypto signing provider

    A shallow embedding of [src/providers/webcrypto/sign.ts] and the
    properties of its one-shot and streaming signers.

    Conventions of the embedding.
    - A JavaScript string is a Rocq [string]; [toLowerCase] folds the ASCII
      letters, which is all [String.prototype.toLowerCase] does on the names
      the tables of this file know.
    - A number is an integer [Z]; storing it in a [Uint8Array] wraps it
      modulo 256 ([ToUint8]).
    - A [Uint8Array] is a reference into a heap of byte arrays, so that
      aliasing and copying are visible; a [number[]] is passed by its
      elements, because the code only ever copies it.
    - A promise is its settlement; the promise returned by [sign] is the
      deferred chain of continuations, run against the heap it finds when
      the task queue reaches it, and it logs the calls it makes to the
      engine ([crypto.subtle]).
    - The engine, its [CryptoKey] and the [utf8] codec of dojo-core are
      outside this file: they are the fields of the class [Platform]. *)

From Stdlib Require Import ZArith String Ascii List Bool Lia.
From stdpp Require Import base option list.

Open Scope string_scope.
Open Scope Z_scope.
Open Scope nat_scope.
Open Scope list_scope.

(** ** Strings *)

Definition lower_ascii (c : ascii) : ascii :=
  let n := nat_of_ascii c in
  if (65 <=? n)%nat && (n <=? 90)%nat then ascii_of_nat (n + 32) else c.

Fixpoint toLowerCase (s : string) : string :=
  match s with
  | EmptyString => EmptyString
  | String c rest => String (lower_ascii c) (toLowerCase rest)
  end.

(** [Array.prototype.join] on an array of strings. *)
Fixpoint join (sep : string) (parts : list string) : string :=
  match parts with
  | [] => ""
  | [p] => p
  | p :: rest => p ++ sep ++ join sep rest
  end.

(** [needle] occurs in [s] (used to read error messages). *)
Fixpoint includes (needle s : string) : bool :=
  String.prefix needle s ||
  match s with
  | EmptyString => false
  | String _ rest => includes needle rest
  end.

(** ** Object literals used as tables

    An object literal has its own properties, in insertion order, and
    inherits the members of [Object.prototype]. *)

Definition ObjectLiteral := list (string * string).

Definition Object_prototype : list string :=
  [ "constructor"; "hasOwnProperty"; "isPrototypeOf"; "propertyIsEnumerable";
    "toLocaleString"; "toString"; "valueOf"; "__proto__";
    "__defineGetter__"; "__defineSetter__";
    "__lookupGetter__"; "__lookupSetter__" ].

Definition string_mem (s : string) (l : list string) : bool :=
  existsb (String.eqb s) l.

Fixpoint own_property (o : ObjectLiteral) (key : string) : option string :=
  match o with
  | [] => None
  | (k, v) :: rest => if String.eqb k key then Some v else own_property rest key
  end.

(** [Object.keys(o)] *)
Definition Object_keys (o : ObjectLiteral) : list string := map fst o.

(** [key in o]: own or inherited. *)
Definition has_property (o : ObjectLiteral) (key : string) : bool :=
  match own_property o key with
  | Some _ => true
  | None => string_mem key Object_prototype
  end.

(** What a property read or a [||] over strings can yield here: a string,
    or the member that [Object.prototype] holds under [key] (a function, or
    the prototype itself); [undefined] is the [None] of an option. *)
Inductive JsValue :=
  | VString (s : string)
  | VInherited (key : string).

(** [o[key]] *)
Definition get_property (o : ObjectLiteral) (key : string) : option JsValue :=
  match own_property o key with
  | Some v => Some (VString v)
  | None => if string_mem key Object_prototype then Some (VInherited key) else None
  end.

(** [ToBoolean] *)
Definition truthy (v : option JsValue) : bool :=
  match v with
  | None => false
  | Some (VString s) => negb (String.eqb s "")
  | Some (VInherited _) => true
  end.

(** [v || fallback] *)
Definition or_else (v : option JsValue) (fallback : string) : JsValue :=
  match v with
  | Some x => if truthy v then x else VString fallback
  | None => VString fallback
  end.

(** ** The tables of the module *)

Definition ALGORITHMS : ObjectLiteral := [ ("hmac", "hmac") ].

Definition HASH : ObjectLiteral :=
  [ ("sha256", "sha-256");
    ("sha-256", "sha-256");
    ("sha1", "sha-1");
    ("sha-1", "sha-1") ].

(** [HASH[hash] || hash], the [name] of the hash in [produceCryptoKey]. *)
Definition hash_name (hash : string) : JsValue :=
  or_else (get_property HASH hash) hash.

(** The hash-name normalization as the specification words it: the name is
    matched without regard to case against the short and canonical
    spellings, and a name that is not known is passed on as it is. *)
Definition spec_hash_name (hash : string) : string :=
  match own_property HASH (toLowerCase hash) with
  | Some canonical => canonical
  | None => hash
  end.

(** The names the module offers. *)
Definition supported (algorithm : string) : bool :=
  string_mem algorithm (Object_keys ALGORITHMS).

(** ** Exceptions, settlements, the heap of byte arrays *)

Inductive Exception :=
  | Error (message : string)
  | TypeError (message : string)
  | RangeError (message : string).

(** How a promise ends: fulfilled, rejected, or never settled. *)
Inductive Settlement (A : Type) :=
  | Fulfilled (value : A)
  | Rejected (reason : Exception)
  | Unsettled.
Arguments Fulfilled {A} value.
Arguments Rejected {A} reason.
Arguments Unsettled {A}.

(** The heap lists the contents of every [Uint8Array] allocated so far, in
    allocation order; a reference is an index into it. *)
Abbreviation loc := nat (only parsing).
Abbreviation Heap := (list (list Z)) (only parsing).

Definition bytes_at (h : Heap) (r : loc) : list Z := default [] (h !! r).

Definition ToUint8 (n : Z) : Z := (n mod 256)%Z.

(** Synchronous code: it reads and extends the heap and may throw. *)
Definition Sync (A : Type) : Type := Heap -> (Exception + A) * Heap.

Definition ret {A} (a : A) : Sync A := fun h => (inr a, h).
Definition throw {A} (e : Exception) : Sync A := fun h => (inl e, h).
Definition bind {A B} (c : Sync A) (k : A -> Sync B) : Sync B :=
  fun h =>
    match c h with
    | (inr a, h') => k a h'
    | (inl e, h') => (inl e, h')
    end.

Notation "'let*' x ':=' c 'in' k" := (bind c (fun x => k))
  (at level 10, x name, c at level 100, k at level 200).
Notation "c ';;;' k" := (bind c (fun _ => k))
  (at level 100, k at level 200, right associativity).

Definition alloc (bytes : list Z) : Sync loc :=
  fun h => (inr (length h), h ++ [bytes]).

(** [new Uint8Array(length)]: zero filled. *)
Definition new_Uint8Array_length (n : nat) : Sync loc := alloc (replicate n 0%Z).

(** [new Uint8Array(numbers)]: a copy, element by element. *)
Definition new_Uint8Array_from (numbers : list Z) : Sync loc :=
  alloc (map ToUint8 numbers).

(** [ref.length]; reading a property of [null] throws. *)
Definition length_of (ref : option loc) : Sync nat :=
  match ref with
  | None => throw (TypeError "Cannot read property 'length' of null")
  | Some r => fun h => (inr (length (bytes_at h r)), h)
  end.

(** [target.set(source, offset)] *)
Definition Uint8Array_set (target : loc) (source : option loc) (offset : nat)
  : Sync unit :=
  match source with
  | None => throw (TypeError "invalid_argument")
  | Some src =>
      fun h =>
        let t := bytes_at h target in
        let s := bytes_at h src in
        if (offset + length s <=? length t)%nat
        then (inr tt,
              <[target := take offset t ++ s ++ drop (offset + length s) t]> h)
        else (inl (RangeError "offset is out of bounds"), h)
  end.

(** ** Data and codecs *)

Record Codec := { encode : string -> Exception + list Z }.

(** [Data] is a string, a [number[]] or a [Uint8Array]; [DNull] is not a
    [Data] of the TypeScript type, but it is what [close] hands to [sign]
    once the buffer has been released. *)
Inductive Data :=
  | DString (s : string)
  | DNumbers (numbers : list Z)
  | DBytes (view : loc)
  | DNull.

(** [new Uint8Array(codec.encode(text))] *)
Definition encode_to_view (codec : Codec) (text : string) : Sync loc :=
  match encode codec text with
  | inl e => throw e
  | inr numbers => new_Uint8Array_from numbers
  end.

Definition dataToArrayBufferView (data : Data) (codec : Codec) : Sync loc :=
  match data with
  | DString s => encode_to_view codec s
  | DNumbers numbers => new_Uint8Array_from numbers
  | DNull => new_Uint8Array_length 0
  | DBytes view => ret view
  end.

Definition concatUint8Arrays (left : option loc) (right : loc) : Sync loc :=
  let* llen := length_of left in
  let* rlen := length_of (Some right) in
  let* result := new_Uint8Array_length (llen + rlen) in
  Uint8Array_set result left 0 ;;;
  Uint8Array_set result (Some right) llen ;;;
  ret result.

(** ** Keys and the engine *)

(** A [SimpleKey]: the name of the hash and the secret, which the code
    treats as a string. *)
Module SimpleKey.
Record t := { algorithm : string; data : string }.
End SimpleKey.

(** The descriptor handed to [importKey], [{ name: n, hash: { name: v } }];
    [hash] holds the inner [name]. *)
Record AlgorithmAndHash := { name : string; hash : JsValue }.

(** [crypto.subtle] and the default codec. The engine answers every call
    with a promise; what it would do with a descriptor it does not know is
    its own business. *)
Class Platform := {
  CryptoKey : Type;
  subtle_importKey :
    string -> list Z -> AlgorithmAndHash -> bool -> list string ->
    Settlement CryptoKey;
  subtle_sign : string -> CryptoKey -> list Z -> Settlement (list Z);
  utf8 : Codec
}.

Section Provider.
Context `{Platform}.

Inductive Key :=
  | IsCryptoKey (k : CryptoKey)
  | IsSimpleKey (k : SimpleKey.t).

(** [Key | Promise<Key>] *)
Inductive KeyOrPromise :=
  | Immediate (k : Key)
  | Promised (p : Settlement Key).

(** The calls that reach the engine, with the bytes they carry. *)
Inductive Event :=
  | ImportKey (format : string) (input : list Z) (descriptor : AlgorithmAndHash)
              (extractable : bool) (usages : list string)
  | SignCall (algorithm : string) (key : CryptoKey) (payload : list Z).

(** A promise returned by this module: the deferred chain, which yields its
    settlement, the heap it leaves and the engine calls it made. *)
Definition Async (A : Type) : Type := Heap -> Settlement A * Heap * list Event.

Definition settled {A} (s : Settlement A) : Async A := fun h => (s, h, []).

(** A callback given to [then]: a throw rejects the derived promise. *)
Definition callback {A} (c : Sync A) : Async A :=
  fun h =>
    match c h with
    | (inr a, h') => (Fulfilled a, h', [])
    | (inl e, h') => (Rejected e, h', [])
    end.

(** [p.then(onFulfilled)] *)
Definition then_ {A B} (p : Async A) (onFulfilled : A -> Async B) : Async B :=
  fun h =>
    match p h with
    | (Fulfilled a, h1, log1) =>
        let '(s, h2, log2) := onFulfilled a h1 in (s, h2, log1 ++ log2)
    | (Rejected e, h1, log1) => (Rejected e, h1, log1)
    | (Unsettled, h1, log1) => (Unsettled, h1, log1)
    end.

(** [Promise.resolve(key)] *)
Definition Promise_resolve (key : KeyOrPromise) : Async Key :=
  match key with
  | Immediate k => settled (Fulfilled k)
  | Promised p => settled p
  end.

(** [global.crypto.subtle.importKey(format, input, descriptor, extractable, usages)] *)
Definition crypto_subtle_importKey (format : string) (input : loc)
    (descriptor : AlgorithmAndHash) (extractable : bool) (usages : list string)
  : Async CryptoKey :=
  fun h =>
    let raw := bytes_at h input in
    (subtle_importKey format raw descriptor extractable usages, h,
     [ImportKey format raw descriptor extractable usages]).

(** [global.crypto.subtle.sign(algorithm, key, view)] *)
Definition crypto_subtle_sign (algorithm : string) (key : CryptoKey) (view : loc)
  : Async (list Z) :=
  fun h =>
    let payload := bytes_at h view in
    (subtle_sign algorithm key payload, h, [SignCall algorithm key payload]).

Definition DEFAULT_CODEC : Codec := utf8.
Definition resolvedPromise : Settlement unit := Fulfilled tt.

Definition produceCryptoKey (algorithm : string) (key : Key) : Async CryptoKey :=
  match key with
  | IsCryptoKey k => settled (Fulfilled k)
  | IsSimpleKey k =>
      let hash := SimpleKey.algorithm k in
      let algorithmAndHash := {| name := algorithm; hash := hash_name hash |} in
      then_ (callback (encode_to_view utf8 (SimpleKey.data k)))
        (fun input =>
           crypto_subtle_importKey "raw" input algorithmAndHash false
             ["sign"; "verify"])
  end.

(** The head of the chain in [sign]:
    [Promise.resolve(key).then(produceCryptoKey.bind(null, algorithm))]. *)
Definition resolved_key (algorithm : string) (key : KeyOrPromise) : Async CryptoKey :=
  then_ (Promise_resolve key) (produceCryptoKey algorithm).

(** The signature is the [Uint8Array] over the engine's [ArrayBuffer], given
    by its bytes. *)
Definition sign (algorithm : string) (key : KeyOrPromise) (data : Data)
    (codec : Codec) : Async (list Z) :=
  then_ (resolved_key algorithm key)
    (fun key =>
       then_
         (then_ (callback (dataToArrayBufferView data codec))
            (fun view => crypto_subtle_sign algorithm key view))
         (fun signature => settled (Fulfilled signature))).

(** ** The streaming signer *)

(** The state of the promise under [signature], as its [resolve] and
    [reject] functions see it: still pending, resolved to follow the promise
    [p], or rejected. The two functions of a promise share one "already
    resolved" flag (ECMAScript, Promise Resolve Functions; [isResolved] in
    the shim of dojo-core): once the promise is not pending, both do
    nothing. *)
Inductive PromiseState :=
  | Pending
  | Follows (p : Async (list Z))
  | RejectedWith (reason : Exception).

Record WebSigner := {
  _key : KeyOrPromise;
  _algorithm : string;
  _codec : Codec;
  _buffer : option loc;
  signature : PromiseState
}.

Definition set_buffer (b : option loc) (this : WebSigner) : WebSigner :=
  {| _key := _key this; _algorithm := _algorithm this; _codec := _codec this;
     _buffer := b; signature := signature this |}.

Definition set_signature (s : PromiseState) (this : WebSigner) : WebSigner :=
  {| _key := _key this; _algorithm := _algorithm this; _codec := _codec this;
     _buffer := _buffer this; signature := s |}.

(** [this._resolve(p)] *)
Definition _resolve (p : Async (list Z)) (this : WebSigner) : WebSigner :=
  match signature this with
  | Pending => set_signature (Follows p) this
  | _ => this
  end.

(** [this._reject(reason)] *)
Definition _reject (reason : Exception) (this : WebSigner) : WebSigner :=
  match signature this with
  | Pending => set_signature (RejectedWith reason) this
  | _ => this
  end.

(** A method returns its promise and leaves the signer and the heap changed. *)
Definition Method : Type := WebSigner -> Heap -> Settlement unit * WebSigner * Heap.

Definition abort (reason : Exception) : Method :=
  fun this h => (resolvedPromise, _reject reason this, h).

Definition start : Method :=
  fun this h =>
    match new_Uint8Array_length 0 h with
    | (inr b, h') => (resolvedPromise, set_buffer (Some b) this, h')
    | (inl e, h') => (Rejected e, this, h')
    end.

Definition write (chunk : Data) : Method :=
  fun this h =>
    match (let* view := dataToArrayBufferView chunk (_codec this) in
           concatUint8Arrays (_buffer this) view) h with
    | (inr b, h') => (resolvedPromise, set_buffer (Some b) this, h')
    | (inl e, h') => (Rejected e, this, h')
    end.

(** Handing the buffer to [sign]: [null] once it has been released. *)
Definition buffer_data (b : option loc) : Data :=
  match b with
  | Some view => DBytes view
  | None => DNull
  end.

(** Neither [sign], which only builds the chain, nor [_resolve] throws, so
    the [catch] of the source is never entered. *)
Definition close : Method :=
  fun this h =>
    let this1 :=
      _resolve (sign (_algorithm this) (_key this) (buffer_data (_buffer this))
                  (_codec this)) this in
    (resolvedPromise, set_buffer None this1, h).

(** [new WebSigner(algorithm, key, codec)] *)
Definition new_WebSigner (algorithm : string) (key : KeyOrPromise) (codec : Codec)
  : Heap -> WebSigner * Heap :=
  fun h =>
    let this := {| _key := key; _algorithm := algorithm; _codec := codec;
                   _buffer := None; signature := Pending |} in
    let '(_, this, h') := start this h in
    (set_signature Pending this, h').

(** ** The factory *)

Record SignFunction := {
  call : KeyOrPromise -> Data -> option Codec -> Async (list Z);
  create : KeyOrPromise -> option Codec -> Heap -> WebSigner * Heap;
  algorithm : string
}.

Definition invalid_algorithm_message : string :=
  "invalid algorithm; available algorithms are [ '"
  ++ join "', '" (Object_keys ALGORITHMS) ++ "' ]".

Definition getSign (algorithm : string) : Exception + SignFunction :=
  let algorithm := toLowerCase algorithm in
  if negb (has_property ALGORITHMS algorithm)
  then inl (Error invalid_algorithm_message)
  else
    inr {| call := fun key data codec =>
                     sign algorithm key data (default DEFAULT_CODEC codec);
           create := fun key codec =>
                       new_WebSigner algorithm key (default DEFAULT_CODEC codec);
           algorithm := algorithm |}.

(** What an observer of a promise of this module eventually sees, when the
    chain it follows runs against the heap [h]. *)
Definition outcome (p : Async (list Z)) (h : Heap) : Settlement (list Z) :=
  (p h).1.1.

Definition engine_calls (p : Async (list Z)) (h : Heap) : list Event :=
  (p h).2.

Definition delivered (s : PromiseState) (h : Heap) : Settlement (list Z) :=
  match s with
  | Pending => Unsettled
  | Follows p => outcome p h
  | RejectedWith reason => Rejected reason
  end.

End Provider.

(** ** Callers *)

Section Callers.
Context `{Platform}.

(** The calls a holder of the signer can make. *)
Inductive Call :=
  | CallWrite (chunk : Data)
  | CallClose
  | CallAbort (reason : Exception)
  | CallStart.

Definition invoke (c : Call) : Method :=
  match c with
  | CallWrite chunk => write chunk
  | CallClose => close
  | CallAbort reason => abort reason
  | CallStart => start
  end.

(** The calls made one after the other; the promises they returned come
    back in order. *)
Fixpoint run (calls : list Call) (this : WebSigner) (h : Heap)
  : list (Settlement unit) * WebSigner * Heap :=
  match calls with
  | [] => ([], this, h)
  | c :: rest =>
      let '(p, this1, h1) := invoke c this h in
      let '(ps, this2, h2) := run rest this1 h1 in
      (p :: ps, this2, h2)
  end.

(** The signer once the calls have been made. *)
Definition after (calls : list Call) (this : WebSigner) (h : Heap) : WebSigner :=
  (run calls this h).1.2.

Definition is_write (c : Call) : bool :=
  match c with
  | CallWrite _ => true
  | _ => false
  end.

Definition is_start (c : Call) : bool :=
  match c with
  | CallStart => true
  | _ => false
  end.

(** Signing the bytes [payload]: the settlement and the engine calls of the
    chain, once the key is resolved (on a heap of its own, here the empty
    one). *)
Definition signed_with (algorithm : string) (key : KeyOrPromise) (payload : list Z)
  : Settlement (list Z) * list Event :=
  match (resolved_key algorithm key []).1.1 with
  | Fulfilled k =>
      (subtle_sign algorithm k payload,
       (resolved_key algorithm key []).2 ++ [SignCall algorithm k payload])
  | Rejected e => (Rejected e, (resolved_key algorithm key []).2)
  | Unsettled => (Unsettled, (resolved_key algorithm key []).2)
  end.

(** [signature] only ever follows a promise made by [sign] with the
    algorithm, key and codec of the signer. *)
Definition follows_own_sign (this : WebSigner) : Prop :=
  match signature this with
  | Follows p =>
      exists data, p = sign (_algorithm this) (_key this) data (_codec this)
  | _ => True
  end.

End Callers.

(** The byte coercion and the payload of a sequence of chunks, as the
    specification words them: a string goes through the codec, a byte
    sequence is taken as it is, a sequence of numbers is turned into bytes
    one by one; the payload is the bytes of the chunks, one after the other. *)
Definition spec_toBytes (h : Heap) (codec : Codec) (chunk : Data)
  : option (list Z) :=
  match chunk with
  | DString s =>
      match encode codec s with
      | inr numbers => Some (map ToUint8 numbers)
      | inl _ => None
      end
  | DBytes view => h !! view
  | DNumbers numbers => Some (map ToUint8 numbers)
  | DNull => None
  end.

Fixpoint spec_concat (h : Heap) (codec : Codec) (chunks : list Data)
  : option (list Z) :=
  match chunks with
  | [] => Some []
  | c :: rest =>
      match spec_toBytes h codec c, spec_concat h codec rest with
      | Some b, Some bs => Some (b ++ bs)
      | _, _ => None
      end
  end.

(** ** Vocabulary for the behaviour of writes *)



(** The error the coercion of a chunk throws, if it throws: only the codec
    can refuse, and only a string goes through it. *)
Definition coercion_error (codec : Codec) (chunk : Data) : option Exception :=
  match chunk with
  | DString s =>
      match encode codec s with
      | inl e => Some e
      | inr _ => None
      end
  | _ => None
  end.

(** The bytes a write adds to the buffer: the bytes of the chunk, and none
    when its coercion throws. *)
Definition written_bytes (h : Heap) (codec : Codec) (chunk : Data) : list Z :=
  match chunk with
  | DString s =>
      match encode codec s with
      | inl _ => []
      | inr numbers => map ToUint8 numbers
      end
  | DNumbers numbers => map ToUint8 numbers
  | DBytes view => bytes_at h view
  | DNull => []
  end.


(** A chunk that is a [Uint8Array] is an array of the heap. *)
Definition chunk_allocated (h : Heap) (chunk : Data) : bool :=
  match chunk with
  | DBytes view => (view <? length h)%nat
  | _ => true
  end.

(** The promise a write of the chunk returns on an open signer. *)
Definition write_promise (codec : Codec) (chunk : Data) : Settlement unit :=
  match coercion_error codec chunk with
  | Some e => Rejected e
  | None => Fulfilled tt
  end.

(** ** A toy platform, to run the definitions on examples

    Its key is the raw key material, it refuses a hash it does not know,
    and its "signature" is the key followed by the payload. Its codec maps
    a character to its code and refuses the empty string. *)

Definition codes (s : string) : list Z :=
  map (fun c => Z.of_nat (nat_of_ascii c)) (list_ascii_of_string s).

Definition toy_codec : Codec :=
  {| encode := fun s =>
       if String.eqb s "" then inl (Error "nothing to encode") else inr (codes s) |}.

Definition toy_platform : Platform :=
  {| CryptoKey := list Z;
     subtle_importKey := fun _ raw descriptor _ _ =>
       match hash descriptor with
       | VString "sha-256" | VString "sha-1" => Fulfilled raw
       | _ => Rejected (Error "unsupported hash")
       end;
     subtle_sign := fun _ key payload => Fulfilled (key ++ payload);
     utf8 := {| encode := fun s => inr (codes s) |} |}.

(** The toy platform with a [utf8] that refuses the empty string. *)
Definition strict_platform : Platform :=
  {| CryptoKey := CryptoKey (Platform := toy_platform);
     subtle_importKey := subtle_importKey (Platform := toy_platform);
     subtle_sign := subtle_sign (Platform := toy_platform);
     utf8 := toy_codec |}.

Definition secret : SimpleKey.t :=
  {| SimpleKey.algorithm := "sha256"; SimpleKey.data := "secret" |}.

Section Toy.
#[local] Existing Instance toy_platform.

Definition toy_key : KeyOrPromise := Immediate (IsSimpleKey secret).

Definition toy_hmac : SignFunction :=
  {| call := fun key data codec =>
               sign "hmac" key data (default DEFAULT_CODEC codec);
     create := fun key codec =>
                 new_WebSigner "hmac" key (default DEFAULT_CODEC codec);
     algorithm := "hmac" |}.

(** A signer of the toy platform, just made, with the codec that refuses
    the empty string; its buffer is the array 0 of the heap [[[]]]. *)
Definition toy_signer : WebSigner :=
  (new_WebSigner "hmac" toy_key toy_codec []).1.

End Toy.

(** * Properties *)

Section Properties.
Context `{Platform}.

(** ** The heap *)

Lemma bytes_at_old (h : Heap) (x : list Z) (r : loc) :
  r < length h -> bytes_at (h ++ [x]) r = bytes_at h r.
Proof.
  intros Hr. unfold bytes_at. by rewrite lookup_app_l.
Qed.

Lemma bytes_at_new (h : Heap) (x : list Z) :
  bytes_at (h ++ [x]) (length h) = x.
Proof.
  unfold bytes_at. by rewrite list_lookup_middle.
Qed.

Lemma bytes_at_lookup (h : Heap) (r : loc) (x : list Z) :
  h !! r = Some x -> bytes_at h r = x.
Proof. intros E. unfold bytes_at. by rewrite E. Qed.

Lemma overwrite_new (h : Heap) (x y : list Z) :
  <[length h := y]> (h ++ [x]) = h ++ [y].
Proof.
  rewrite insert_app_r_alt by lia.
  by replace (length h - length h) with 0 by lia.
Qed.

(** ** [concatUint8Arrays] *)

Lemma concat_allocated (h : Heap) (l r : loc) :
  l < length h -> r < length h ->
  concatUint8Arrays (Some l) r h
  = (inr (length h), h ++ [bytes_at h l ++ bytes_at h r]).
Proof.
  intros Hl Hr.
  unfold concatUint8Arrays, bind, length_of, new_Uint8Array_length, alloc,
    Uint8Array_set, ret.
  set (L := bytes_at h l). set (R := bytes_at h r).
  rewrite bytes_at_new, bytes_at_old by done. fold L.
  rewrite length_replicate.
  replace (0 + length L <=? length L + length R) with true
    by (symmetry; apply Nat.leb_le; lia).
  rewrite overwrite_new. cbn [take].
  rewrite bytes_at_new, bytes_at_old by done. fold R.
  rewrite drop_replicate, Nat.add_0_l, Nat.add_sub', app_nil_l.
  rewrite !length_app, length_replicate.
  rewrite Nat.leb_refl, overwrite_new.
  rewrite take_app_length, drop_ge, app_nil_r; [done|].
  rewrite length_app, length_replicate. lia.
Qed.

(** Whatever its arguments, the function only adds its result to the heap. *)
Lemma concat_extends (left : option loc) (right : loc) (h : Heap) :
  h `prefix_of` (concatUint8Arrays left right h).2.
Proof.
  destruct left as [l|]; [|done].
  unfold concatUint8Arrays, bind, length_of, new_Uint8Array_length, alloc,
    Uint8Array_set, ret.
  destruct (_ <=? _); cbn [snd]; [|by apply prefix_app_r].
  rewrite overwrite_new.
  destruct (_ <=? _); cbn [snd]; [|by apply prefix_app_r].
  rewrite overwrite_new. by apply prefix_app_r.
Qed.

Lemma concat_null (h : Heap) (r : loc) :
  exists message, concatUint8Arrays None r h = (inl (TypeError message), h).
Proof. eexists. reflexivity. Qed.

(** C9. For byte sequences [left] and [right] of the heap,
    [concatUint8Arrays left right] returns an array that did not exist
    before, so that it is neither [left] nor [right]; its length is the sum
    of their lengths, it holds the bytes of [left] from offset 0 and those
    of [right] right after; the arrays that existed keep their contents, and
    a later write into any other array does not show in the result. *)
Theorem concatUint8Arrays_fresh_copy (h : Heap) (left right : loc) :
  left < length h -> right < length h ->
  exists result h',
    concatUint8Arrays (Some left) right h = (inr result, h')
    /\ h !! result = None
    /\ result <> left /\ result <> right
    /\ length (bytes_at h' result)
       = length (bytes_at h left) + length (bytes_at h right)
    /\ take (length (bytes_at h left)) (bytes_at h' result) = bytes_at h left
    /\ drop (length (bytes_at h left)) (bytes_at h' result) = bytes_at h right
    /\ (forall r, r < length h -> h' !! r = h !! r)
    /\ (forall r x, r <> result ->
          bytes_at (<[r := x]> h') result = bytes_at h' result).
Proof.
  intros Hl Hr. exists (length h), (h ++ [bytes_at h left ++ bytes_at h right]).
  split; [by apply concat_allocated|].
  split; [by apply lookup_ge_None_2|].
  split; [lia|]. split; [lia|].
  rewrite bytes_at_new.
  split; [by rewrite length_app|].
  split; [by rewrite take_app_length|].
  split; [by rewrite drop_app_length|].
  split.
  - intros r Hlt. by rewrite lookup_app_l.
  - intros r x Hne. unfold bytes_at.
    rewrite list_lookup_insert_ne by done. by rewrite list_lookup_middle.
Qed.

(** ** [dataToArrayBufferView] *)

Lemma ToUint8_byte (n : Z) : (0 <= n < 256)%Z -> ToUint8 n = n.
Proof. intros Hn. unfold ToUint8. by apply Z.mod_small. Qed.

Lemma ToUint8_bytes (numbers : list Z) :
  Forall (fun n => (0 <= n < 256)%Z) numbers -> map ToUint8 numbers = numbers.
Proof.
  induction 1 as [|n rest Hn _ IH]; cbn; [done|].
  by rewrite ToUint8_byte, IH.
Qed.

(** C8. The byte coercion, by case. A string the codec encodes becomes a
    new array holding the encoding (the very numbers of the codec when they
    are bytes); a [Uint8Array] comes back as the same reference and the heap
    is left as it was; any other sequence of numbers, the empty one too, is
    copied element by element into a new array of the same length. *)
Theorem dataToArrayBufferView_by_case (h : Heap) (codec : Codec) :
  (forall s numbers, encode codec s = inr numbers ->
     dataToArrayBufferView (DString s) codec h
     = (inr (length h), h ++ [map ToUint8 numbers])
     /\ h !! length h = None
     /\ (Forall (fun n => (0 <= n < 256)%Z) numbers ->
         bytes_at (h ++ [map ToUint8 numbers]) (length h) = numbers))
  /\ (forall view, dataToArrayBufferView (DBytes view) codec h = (inr view, h))
  /\ (forall numbers,
        dataToArrayBufferView (DNumbers numbers) codec h
        = (inr (length h), h ++ [map ToUint8 numbers])
        /\ h !! length h = None
        /\ length (bytes_at (h ++ [map ToUint8 numbers]) (length h))
           = length numbers
        /\ (forall i n, numbers !! i = Some n ->
              bytes_at (h ++ [map ToUint8 numbers]) (length h) !! i
              = Some (ToUint8 n)))
  /\ dataToArrayBufferView (DNumbers []) codec h = (inr (length h), h ++ [[]]).
Proof.
  split; [|split; [|split]].
  - intros s numbers E. split; [|split].
    + cbn. unfold encode_to_view. by rewrite E.
    + by apply lookup_ge_None_2.
    + intros Hb. by rewrite bytes_at_new, ToUint8_bytes.
  - done.
  - intros numbers. split; [done|]. split; [by apply lookup_ge_None_2|].
    rewrite bytes_at_new. split; [by rewrite length_map|].
    intros i n E. change (map ToUint8 numbers) with (ToUint8 <$> numbers).
    by rewrite list_lookup_fmap, E.
  - done.
Qed.

(** ** One chunk *)

(** What a successful coercion leaves behind. *)
Lemma coercion_succeeds (h : Heap) (codec : Codec) (chunk : Data) (bytes : list Z) :
  spec_toBytes h codec chunk = Some bytes ->
  exists view h1,
    dataToArrayBufferView chunk codec h = (inr view, h1)
    /\ h1 !! view = Some bytes
    /\ h `prefix_of` h1.
Proof.
  destruct chunk as [s|numbers|view|]; cbn; intros E.
  - destruct (encode codec s) as [e|numbers] eqn:Es; [done|].
    injection E as <-. exists (length h), (h ++ [map ToUint8 numbers]).
    unfold encode_to_view. rewrite Es.
    split; [done|]. split; [by rewrite list_lookup_middle|by apply prefix_app_r].
  - injection E as <-. exists (length h), (h ++ [map ToUint8 numbers]).
    split; [done|]. split; [by rewrite list_lookup_middle|by apply prefix_app_r].
  - by exists view, h.
  - done.
Qed.

Lemma spec_toBytes_later (h h' : Heap) (codec : Codec) (chunk : Data) (bytes : list Z) :
  h `prefix_of` h' ->
  spec_toBytes h codec chunk = Some bytes ->
  spec_toBytes h' codec chunk = Some bytes.
Proof.
  intros Hp. destruct chunk; cbn; try done.
  intros E. by eapply prefix_lookup_Some.
Qed.

Lemma spec_concat_later (h h' : Heap) (codec : Codec) (chunks : list Data) :
  h `prefix_of` h' ->
  forall payload,
    spec_concat h codec chunks = Some payload ->
    spec_concat h' codec chunks = Some payload.
Proof.
  intros Hp. induction chunks as [|c rest IH]; cbn; [done|].
  intros payload.
  destruct (spec_toBytes h codec c) as [b|] eqn:Eb; [|done].
  destruct (spec_concat h codec rest) as [bs|] eqn:Ebs; [|done].
  intros E. rewrite (spec_toBytes_later h h' codec c b Hp Eb).
  by rewrite (IH bs eq_refl).
Qed.

(** A write on an open signer appends the bytes of the chunk to a new
    buffer. *)
Lemma write_appends (this : WebSigner) (h : Heap) (chunk : Data)
    (b : loc) (old bytes : list Z) :
  _buffer this = Some b ->
  h !! b = Some old ->
  spec_toBytes h (_codec this) chunk = Some bytes ->
  exists b' h',
    write chunk this h = (resolvedPromise, set_buffer (Some b') this, h')
    /\ h' !! b' = Some (old ++ bytes)
    /\ h `prefix_of` h'.
Proof.
  intros Eb Hb Ec.
  destruct (coercion_succeeds h _ chunk bytes Ec) as (view & h1 & Ev & Hv & Hp).
  assert (Hb1 : h1 !! b = Some old) by (by eapply prefix_lookup_Some).
  exists (length h1), (h1 ++ [old ++ bytes]).
  unfold write, bind. rewrite Ev, Eb.
  rewrite concat_allocated
    by (eapply lookup_lt_Some; eassumption).
  rewrite (bytes_at_lookup _ _ _ Hb1), (bytes_at_lookup _ _ _ Hv).
  split; [done|]. split; [by rewrite list_lookup_middle|].
  etrans; [exact Hp|by apply prefix_app_r].
Qed.

(** A write whose coercion throws rejects its own promise and changes
    nothing. *)
Lemma write_coercion_throws (this : WebSigner) (h : Heap) (chunk : Data)
    (e : Exception) (h1 : Heap) :
  dataToArrayBufferView chunk (_codec this) h = (inl e, h1) ->
  write chunk this h = (Rejected e, this, h) /\ h1 = h.
Proof.
  intros E. assert (h1 = h) as ->.
  { destruct chunk as [s|numbers|view|]; cbn in E; try done.
    unfold encode_to_view in E.
    destruct (encode (_codec this) s); cbn in E; [|done]. by injection E. }
  split; [|done]. unfold write, bind. by rewrite E.
Qed.

(** A write on a released buffer rejects its promise and leaves the buffer
    released. *)
Lemma write_released (this : WebSigner) (h : Heap) (chunk : Data) :
  _buffer this = None ->
  exists e h', write chunk this h = (Rejected e, this, h').
Proof.
  intros Eb. unfold write, bind. rewrite Eb.
  destruct (dataToArrayBufferView chunk (_codec this) h) as [[e|view] h1].
  - by exists e, h1.
  - destruct (concat_null h1 view) as [message ->]. by eexists _, _.
Qed.

(** ** What a call can change *)

Lemma coercion_extends (data : Data) (codec : Codec) (h : Heap) :
  h `prefix_of` (dataToArrayBufferView data codec h).2.
Proof.
  destruct data as [s|numbers|view|]; cbn; try done; try by apply prefix_app_r.
  unfold encode_to_view. destruct (encode codec s); cbn; [done|].
  by apply prefix_app_r.
Qed.

(** No call writes into an array that exists: the heap only grows. *)
Lemma invoke_extends_heap (c : Call) (this : WebSigner) (h : Heap) :
  h `prefix_of` (invoke c this h).2.
Proof.
  destruct c as [chunk| |reason|]; cbn; try done; try by apply prefix_app_r.
  unfold write, bind.
  pose proof (coercion_extends chunk (_codec this) h) as Hc.
  destruct (dataToArrayBufferView chunk (_codec this) h) as [[e|view] h1];
    cbn in Hc; [done|].
  pose proof (concat_extends (_buffer this) view h1) as Hx.
  destruct (concatUint8Arrays (_buffer this) view h1) as [[e|b] h2];
    cbn in Hx; cbn; by etrans.
Qed.

Lemma write_changes_buffer_only (chunk : Data) (this : WebSigner) (h : Heap) :
  exists b, (write chunk this h).1.2 = set_buffer b this.
Proof.
  unfold write.
  destruct (bind _ _ h) as [[e|b] h1]; cbn.
  - exists (_buffer this). by destruct this.
  - by exists (Some b).
Qed.

Lemma invoke_settled (c : Call) (this : WebSigner) (h : Heap) :
  signature this <> Pending ->
  signature (invoke c this h).1.2 = signature this.
Proof.
  intros Hs. destruct c as [chunk| |reason|]; cbn.
  - destruct (write_changes_buffer_only chunk this h) as [b ->]. done.
  - unfold _resolve. destruct (signature this) eqn:E; cbn; congruence.
  - unfold _reject. destruct (signature this) eqn:E; cbn; congruence.
  - done.
Qed.

Lemma invoke_passive (c : Call) (this : WebSigner) (h : Heap) :
  (is_write c || is_start c) = true ->
  signature (invoke c this h).1.2 = signature this.
Proof.
  destruct c as [chunk| |reason|]; cbn; try done.
  intros _. destruct (write_changes_buffer_only chunk this h) as [b ->]. done.
Qed.

Lemma invoke_configuration (c : Call) (this : WebSigner) (h : Heap) :
  _key (invoke c this h).1.2 = _key this
  /\ _algorithm (invoke c this h).1.2 = _algorithm this
  /\ _codec (invoke c this h).1.2 = _codec this.
Proof.
  destruct c as [chunk| |reason|]; cbn.
  - destruct (write_changes_buffer_only chunk this h) as [b ->]. done.
  - unfold _resolve. by destruct (signature this).
  - unfold _reject. by destruct (signature this).
  - done.
Qed.

Lemma run_cons (c : Call) (rest : list Call) (this : WebSigner) (h : Heap) :
  run (c :: rest) this h
  = ((invoke c this h).1.1 :: (run rest (invoke c this h).1.2 (invoke c this h).2).1.1,
     (run rest (invoke c this h).1.2 (invoke c this h).2).1.2,
     (run rest (invoke c this h).1.2 (invoke c this h).2).2).
Proof.
  cbn [run]. destruct (invoke c this h) as [[p this1] h1]. cbn.
  by destruct (run rest this1 h1) as [[ps this2] h2].
Qed.

Lemma run_app (first second : list Call) (this : WebSigner) (h : Heap) :
  run (first ++ second) this h
  = ((run first this h).1.1
       ++ (run second (run first this h).1.2 (run first this h).2).1.1,
     (run second (run first this h).1.2 (run first this h).2).1.2,
     (run second (run first this h).1.2 (run first this h).2).2).
Proof.
  revert this h. induction first as [|c rest IH]; intros this h.
  - cbn. by destruct (run second this h) as [[ps this2] h2].
  - rewrite <- app_comm_cons, !run_cons, IH. done.
Qed.

Lemma after_cons (c : Call) (rest : list Call) (this : WebSigner) (h : Heap) :
  after (c :: rest) this h = after rest (invoke c this h).1.2 (invoke c this h).2.
Proof. unfold after. by rewrite run_cons. Qed.

Lemma after_app (first second : list Call) (this : WebSigner) (h : Heap) :
  after (first ++ second) this h
  = after second (after first this h) (run first this h).2.
Proof. unfold after. by rewrite run_app. Qed.

Lemma run_extends_heap (calls : list Call) (this : WebSigner) (h : Heap) :
  h `prefix_of` (run calls this h).2.
Proof.
  revert this h. induction calls as [|c rest IH]; intros this h; [done|].
  rewrite run_cons. cbn [snd].
  etrans; [apply (invoke_extends_heap c this h)|apply IH].
Qed.

Lemma settled_forever (calls : list Call) (this : WebSigner) (h : Heap) :
  signature this <> Pending ->
  signature (after calls this h) = signature this.
Proof.
  revert this h. induction calls as [|c rest IH]; intros this h Hs; [done|].
  rewrite after_cons, IH; rewrite invoke_settled; done.
Qed.

Lemma passive_calls_keep_pending (calls : list Call) (this : WebSigner) (h : Heap) :
  forallb (fun c => is_write c || is_start c) calls = true ->
  signature (after calls this h) = signature this.
Proof.
  revert this h. induction calls as [|c rest IH]; intros this h Hc; [done|].
  cbn in Hc. apply andb_prop in Hc as [Hc Hrest].
  rewrite after_cons, IH by done. by apply invoke_passive.
Qed.

Lemma configuration_kept (calls : list Call) (this : WebSigner) (h : Heap) :
  _key (after calls this h) = _key this
  /\ _algorithm (after calls this h) = _algorithm this
  /\ _codec (after calls this h) = _codec this.
Proof.
  revert this h. induction calls as [|c rest IH]; intros this h; [done|].
  rewrite after_cons.
  destruct (IH (invoke c this h).1.2 (invoke c this h).2) as (-> & -> & ->).
  apply invoke_configuration.
Qed.

(** ** Settlement of [signature] *)

(** C2. On a signer whose [signature] is pending, after any writes, the
    first of [abort] and [close] settles the fate of [signature], whatever
    is called later ([close], [abort], [write], [start]): after
    [abort(reason)] the promise is rejected with [reason] and a later
    [close] does not change that; after [close] it follows the promise that
    [sign] returned for the buffer of that moment, and a later [abort] does
    not reject it. *)
Theorem first_terminal_call_settles (this : WebSigner) (h : Heap)
    (before later : list Call) :
  signature this = Pending ->
  forallb (fun c => is_write c || is_start c) before = true ->
  (forall reason,
     signature (after (before ++ CallAbort reason :: later) this h)
     = RejectedWith reason
     /\ forall h',
         delivered (signature (after (before ++ CallAbort reason :: later) this h)) h'
         = Rejected reason)
  /\ signature (after (before ++ CallClose :: later) this h)
     = Follows (sign (_algorithm this) (_key this)
                  (buffer_data (_buffer (after before this h))) (_codec this))
  /\ (forall h',
        delivered (signature (after (before ++ CallClose :: later) this h)) h'
        = outcome (sign (_algorithm this) (_key this)
                     (buffer_data (_buffer (after before this h))) (_codec this)) h').
Proof.
  intros Hp Hb.
  pose proof (passive_calls_keep_pending before this h Hb) as Hs.
  rewrite Hp in Hs.
  destruct (configuration_kept before this h) as (Hk & Ha & Hc).
  assert (Habort : forall reason,
    signature (after (before ++ CallAbort reason :: later) this h)
    = RejectedWith reason).
  { intros reason. rewrite after_app, after_cons, settled_forever.
    - cbn. unfold _reject. by rewrite Hs.
    - cbn. unfold _reject. by rewrite Hs. }
  assert (Hclose :
    signature (after (before ++ CallClose :: later) this h)
    = Follows (sign (_algorithm this) (_key this)
                 (buffer_data (_buffer (after before this h))) (_codec this))).
  { rewrite after_app, after_cons, settled_forever.
    - cbn. unfold _resolve. rewrite Hs. cbn. by rewrite Hk, Ha, Hc.
    - cbn. unfold _resolve. by rewrite Hs. }
  split; [|split].
  - intros reason. split; [apply Habort|]. intros h'. by rewrite Habort.
  - exact Hclose.
  - intros h'. by rewrite Hclose.
Qed.

(** ** Writes that fail *)

(** C5. On an open signer, a write whose chunk cannot be coerced returns a
    promise rejected with the error of the coercion and leaves the signer as
    it was, [signature] and buffer included, and the heap too; a pending
    [signature] stays unsettled, and the next write of a chunk that can be
    coerced is accepted and appends its bytes to what had been accumulated. *)
Theorem write_coercion_failure_is_local (this : WebSigner) (h h1 : Heap)
    (chunk : Data) (e : Exception) (b : loc) (accumulated : list Z) :
  _buffer this = Some b ->
  h !! b = Some accumulated ->
  dataToArrayBufferView chunk (_codec this) h = (inl e, h1) ->
  write chunk this h = (Rejected e, this, h)
  /\ (signature this = Pending ->
      forall h', delivered (signature (write chunk this h).1.2) h' = Unsettled)
  /\ _buffer (write chunk this h).1.2 = Some b
  /\ (write chunk this h).2 !! b = Some accumulated
  /\ (forall next bytes,
        spec_toBytes h (_codec this) next = Some bytes ->
        exists b' h',
          write next (write chunk this h).1.2 (write chunk this h).2
          = (resolvedPromise, set_buffer (Some b') this, h')
          /\ h' !! b' = Some (accumulated ++ bytes)).
Proof.
  intros Eb Hb Ec.
  destruct (write_coercion_throws this h chunk e h1 Ec) as [Ew _].
  rewrite Ew. cbn.
  split; [done|]. split; [by intros ->|]. split; [done|]. split; [done|].
  intros next bytes En.
  destruct (write_appends this h next b accumulated bytes Eb Hb En)
    as (b' & h' & E' & Hb' & _).
  by exists b', h'.
Qed.

(** ** After [close] *)

Lemma released_stays (calls : list Call) (this : WebSigner) (h : Heap) :
  _buffer this = None ->
  forallb (fun c => negb (is_start c)) calls = true ->
  _buffer (after calls this h) = None
  /\ (forall i chunk, calls !! i = Some (CallWrite chunk) ->
        exists e, (run calls this h).1.1 !! i = Some (Rejected e)).
Proof.
  revert this h. induction calls as [|c rest IH]; intros this h Eb Hs.
  - split; [done|]. intros i chunk E. by rewrite lookup_nil in E.
  - cbn in Hs. apply andb_prop in Hs as [Hc Hrest].
    assert (Hinv : _buffer (invoke c this h).1.2 = None
                   /\ (is_write c = true ->
                       exists e, (invoke c this h).1.1 = Rejected e)).
    { destruct c as [chunk| |reason|]; cbn.
      - destruct (write_released this h chunk Eb) as (e & h' & ->). cbn.
        split; [done|]. intros _. by exists e.
      - done.
      - split; [|done]. unfold _reject. by destruct (signature this).
      - done. }
    destruct Hinv as [Hnone Hrej].
    destruct (IH (invoke c this h).1.2 (invoke c this h).2 Hnone Hrest)
      as [IHb IHw].
    rewrite after_cons, run_cons. cbn [fst snd].
    split; [exact IHb|].
    intros [|i] chunk E; cbn in E.
    + injection E as ->. destruct (Hrej eq_refl) as [e ->]. by exists e.
    + by apply (IHw i chunk).
Qed.

(** C7, as the code has it. [close] releases the buffer: it is [null] when
    [close] returns, and as long as [start] is not called again it stays so
    through the calls that follow ([write], [close], [abort]); every write
    among them returns a rejected promise and appends nothing. *)
Theorem close_releases_buffer (this : WebSigner) (h : Heap) (later : list Call) :
  forallb (fun c => negb (is_start c)) later = true ->
  _buffer (after [CallClose] this h) = None
  /\ _buffer (after (CallClose :: later) this h) = None
  /\ (forall i chunk, later !! i = Some (CallWrite chunk) ->
        exists e,
          (run (CallClose :: later) this h).1.1 !! S i = Some (Rejected e)).
Proof.
  intros Hs. split; [done|].
  destruct (released_stays later (invoke CallClose this h).1.2
              (invoke CallClose this h).2 eq_refl Hs) as [Hb Hw].
  rewrite after_cons, run_cons. split; [exact Hb|].
  intros i chunk E. cbn [fst snd lookup list_lookup]. by apply (Hw i chunk).
Qed.

(** ** Key resolution *)

Lemma produceCryptoKey_simple (algorithm : string) (k : SimpleKey.t) (h : Heap) :
  produceCryptoKey algorithm (IsSimpleKey k) h
  = match encode utf8 (SimpleKey.data k) with
    | inl e => (Rejected e, h, [])
    | inr numbers =>
        let raw := map ToUint8 numbers in
        let descriptor :=
          {| name := algorithm; hash := hash_name (SimpleKey.algorithm k) |} in
        (subtle_importKey "raw" raw descriptor false ["sign"; "verify"],
         h ++ [raw],
         [ImportKey "raw" raw descriptor false ["sign"; "verify"]])
    end.
Proof.
  unfold produceCryptoKey, then_, callback, encode_to_view.
  destruct (encode utf8 (SimpleKey.data k)) as [e|numbers]; [done|].
  cbn. unfold crypto_subtle_importKey. rewrite bytes_at_new.
  by destruct (subtle_importKey _ _ _ _ _).
Qed.

Lemma resolved_key_immediate (algorithm : string) (k : Key) (h : Heap) :
  resolved_key algorithm (Immediate k) h = produceCryptoKey algorithm k h.
Proof.
  unfold resolved_key, then_, Promise_resolve, settled.
  by destruct (produceCryptoKey algorithm k h) as [[s h'] log].
Qed.

Lemma resolved_key_promised (algorithm : string) (p : Settlement Key) (h : Heap) :
  resolved_key algorithm (Promised p) h
  = match p with
    | Fulfilled k => resolved_key algorithm (Immediate k) h
    | Rejected e => (Rejected e, h, [])
    | Unsettled => (Unsettled, h, [])
    end.
Proof. by destruct p. Qed.

(** C6. Key resolution, the head of the chain in [sign], has three cases.
    A prepared [CryptoKey] is handed on as it is, without a call to the
    engine; a promise is awaited, and its value then goes through the same
    cases as an immediate key, while its rejection (or its silence) is that
    of the chain; a [SimpleKey] is imported by the engine, from the encoded
    bytes of its [data] and the descriptor made of the algorithm and the
    hash name, as a raw, non extractable key for [sign] and [verify]. *)
Theorem key_resolution_dispatch (algorithm : string) (h : Heap) :
  (forall k : CryptoKey,
     produceCryptoKey algorithm (IsCryptoKey k) h = (Fulfilled k, h, [])
     /\ resolved_key algorithm (Immediate (IsCryptoKey k)) h = (Fulfilled k, h, []))
  /\ (forall p : Settlement Key,
        resolved_key algorithm (Promised p) h
        = match p with
          | Fulfilled k => resolved_key algorithm (Immediate k) h
          | Rejected e => (Rejected e, h, [])
          | Unsettled => (Unsettled, h, [])
          end)
  /\ (forall (k : SimpleKey.t) (numbers : list Z),
        encode utf8 (SimpleKey.data k) = inr numbers ->
        resolved_key algorithm (Immediate (IsSimpleKey k)) h
        = (subtle_importKey "raw" (map ToUint8 numbers)
             {| name := algorithm; hash := hash_name (SimpleKey.algorithm k) |}
             false ["sign"; "verify"],
           h ++ [map ToUint8 numbers],
           [ImportKey "raw" (map ToUint8 numbers)
              {| name := algorithm; hash := hash_name (SimpleKey.algorithm k) |}
              false ["sign"; "verify"]])).
Proof.
  split; [|split].
  - done.
  - intros p. apply resolved_key_promised.
  - intros k numbers E.
    by rewrite resolved_key_immediate, produceCryptoKey_simple, E.
Qed.

(** The key a chain ends up with does not depend on the heap it runs on,
    and the chain only extends that heap. *)
Lemma resolved_key_heap (algorithm : string) (key : KeyOrPromise) (h : Heap) :
  (resolved_key algorithm key h).1.1 = (resolved_key algorithm key []).1.1
  /\ (resolved_key algorithm key h).2 = (resolved_key algorithm key []).2
  /\ h `prefix_of` (resolved_key algorithm key h).1.2.
Proof.
  assert (Hk : forall k,
    (resolved_key algorithm (Immediate k) h).1.1
    = (resolved_key algorithm (Immediate k) []).1.1
    /\ (resolved_key algorithm (Immediate k) h).2
       = (resolved_key algorithm (Immediate k) []).2
    /\ h `prefix_of` (resolved_key algorithm (Immediate k) h).1.2).
  { intros [k|k].
    - done.
    - rewrite !resolved_key_immediate, !produceCryptoKey_simple.
      destruct (encode utf8 (SimpleKey.data k)) as [e|numbers]; cbn; [done|].
      split; [done|split; [done|by apply prefix_app_r]]. }
  destruct key as [k|[k|e|]]; [apply Hk| |done|done].
  rewrite !resolved_key_promised. apply Hk.
Qed.

(** ** One-shot signing of a byte array *)

Lemma sign_payload (algorithm : string) (key : KeyOrPromise) (data : Data)
    (codec : Codec) (h : Heap) (payload : list Z) :
  spec_toBytes h codec data = Some payload ->
  (outcome (sign algorithm key data codec) h,
   engine_calls (sign algorithm key data codec) h)
  = signed_with algorithm key payload.
Proof.
  intros Hv. unfold outcome, engine_calls, signed_with, sign.
  destruct (resolved_key_heap algorithm key h) as (Hs & Hl & Hp).
  rewrite <- Hs, <- Hl.
  match goal with
  | |- context [then_ (resolved_key algorithm key) ?k] => set (K := k)
  end.
  unfold then_.
  destruct (resolved_key algorithm key h) as [[[k|e|] h1] log1]; [|done|done].
  cbn in Hp.
  destruct (coercion_succeeds h1 codec data payload
              (spec_toBytes_later h h1 codec data payload Hp Hv))
    as (view & h2 & Ev & Hview & _).
  subst K. unfold then_, callback. rewrite Ev.
  unfold crypto_subtle_sign. rewrite (bytes_at_lookup h2 view payload Hview).
  cbn [fst snd]. destruct (subtle_sign algorithm k payload); reflexivity.
Qed.

(** Two one-shot calls whose payloads come to the same bytes end alike and
    ask the engine the same. *)
Lemma sign_same_payload (algorithm : string) (key : KeyOrPromise) (codec : Codec)
    (h h' : Heap) (data data' : Data) (payload : list Z) :
  spec_toBytes h codec data = Some payload ->
  spec_toBytes h' codec data' = Some payload ->
  outcome (sign algorithm key data codec) h
  = outcome (sign algorithm key data' codec) h'
  /\ engine_calls (sign algorithm key data codec) h
     = engine_calls (sign algorithm key data' codec) h'.
Proof.
  intros Hv Hv'.
  pose proof (sign_payload algorithm key data codec h payload Hv) as E.
  pose proof (sign_payload algorithm key data' codec h' payload Hv') as E'.
  rewrite <- E' in E. by injection E.
Qed.

(** ** The factory *)

Lemma getSign_inr (text : string) (f : SignFunction) :
  getSign text = inr f ->
  f = {| call := fun key data codec =>
                   sign (toLowerCase text) key data (default DEFAULT_CODEC codec);
         create := fun key codec =>
                     new_WebSigner (toLowerCase text) key
                       (default DEFAULT_CODEC codec);
         algorithm := toLowerCase text |}.
Proof.
  unfold getSign. destruct (negb _); [done|]. by intros [= <-].
Qed.

Lemma new_WebSigner_eq (algorithm : string) (key : KeyOrPromise) (codec : Codec)
    (h : Heap) :
  new_WebSigner algorithm key codec h
  = ({| _key := key; _algorithm := algorithm; _codec := codec;
        _buffer := Some (length h); signature := Pending |},
     h ++ [[]]).
Proof. reflexivity. Qed.

(** ** Streaming against one-shot signing *)

Lemma writes_accumulate (chunks : list Data) :
  forall (this : WebSigner) (h : Heap) (b : loc) (old payload : list Z),
    _buffer this = Some b ->
    h !! b = Some old ->
    spec_concat h (_codec this) chunks = Some payload ->
    exists b' h',
      run (map CallWrite chunks) this h
      = (replicate (length chunks) resolvedPromise,
         set_buffer (Some b') this, h')
      /\ h' !! b' = Some (old ++ payload)
      /\ h `prefix_of` h'.
Proof.
  induction chunks as [|c rest IH]; intros this h b old payload Eb Hb Ec.
  - injection Ec as <-. exists b, h. rewrite app_nil_r.
    split; [|done]. destruct this. cbn in Eb. by subst.
  - cbn in Ec.
    destruct (spec_toBytes h (_codec this) c) as [bytes|] eqn:Ebytes; [|done].
    destruct (spec_concat h (_codec this) rest) as [more|] eqn:Emore; [|done].
    injection Ec as <-.
    destruct (write_appends this h c b old bytes Eb Hb Ebytes)
      as (b1 & h1 & Ew & Hb1 & Hp1).
    destruct (IH (set_buffer (Some b1) this) h1 b1 (old ++ bytes) more
                eq_refl Hb1 (spec_concat_later h h1 _ rest Hp1 more Emore))
      as (b' & h' & Er & Hb' & Hp').
    exists b', h'. cbn [map run invoke]. rewrite Ew, Er.
    split; [done|]. split; [by rewrite app_assoc|by etrans].
Qed.

(** C1. A signer made by [create] that is written the chunks [C1 ... Cn],
    each of which can be coerced, and is then closed: every call is
    accepted, the buffer handed to [sign] holds the bytes of the chunks one
    after the other, [signature] follows the very promise the one-shot form
    of the same [SignFunction] returns for that buffer, with the same key
    and codec, and what it delivers is what the one-shot form delivers for
    any payload whose bytes are that concatenation (a byte array holding
    it, or a string that the codec encodes to it); the calls made to the
    engine are the same too. No call made after [close] changes the buffer
    that was handed over. *)
Theorem streaming_signature_is_one_shot (text : string) (f : SignFunction)
    (key : KeyOrPromise) (codec : option Codec) (chunks : list Data)
    (h0 : Heap) (payload : list Z) :
  getSign text = inr f ->
  spec_concat h0 (default DEFAULT_CODEC codec) chunks = Some payload ->
  exists buffer : loc,
    (run (map CallWrite chunks ++ [CallClose])
       (create f key codec h0).1 (create f key codec h0).2).1.1
    = replicate (S (length chunks)) resolvedPromise
    /\ (run (map CallWrite chunks)
          (create f key codec h0).1 (create f key codec h0).2).2 !! buffer
       = Some payload
    /\ signature (after (map CallWrite chunks ++ [CallClose])
                    (create f key codec h0).1 (create f key codec h0).2)
       = Follows (call f key (DBytes buffer) codec)
    /\ (forall later : list Call,
          (run (map CallWrite chunks ++ CallClose :: later)
             (create f key codec h0).1 (create f key codec h0).2).2 !! buffer
          = Some payload)
    /\ (forall (h_later h' : Heap) (data : Data),
          h_later !! buffer = Some payload ->
          spec_toBytes h' (default DEFAULT_CODEC codec) data = Some payload ->
          delivered
            (signature (after (map CallWrite chunks ++ [CallClose])
                          (create f key codec h0).1 (create f key codec h0).2))
            h_later
          = outcome (call f key data codec) h'
          /\ engine_calls (call f key (DBytes buffer) codec) h_later
             = engine_calls (call f key data codec) h').
Proof.
  intros Ef Ec. rewrite (getSign_inr text f Ef). cbn [create call].
  rewrite new_WebSigner_eq. cbn [fst snd].
  set (this0 := {| _key := key; _algorithm := toLowerCase text;
                   _codec := default DEFAULT_CODEC codec;
                   _buffer := Some (length h0); signature := Pending |}).
  destruct (writes_accumulate chunks this0 (h0 ++ [[]]) (length h0) [] payload
              eq_refl (list_lookup_middle h0 [] [] (length h0) eq_refl)
              (spec_concat_later h0 (h0 ++ [[]]) _ chunks
                 (prefix_app_r h0 h0 [[]] (reflexivity h0)) payload Ec))
    as (b & h & Er & Hb & _).
  exists b. unfold after. rewrite run_app, Er. cbn.
  assert (Es : forall n, replicate n resolvedPromise ++ [resolvedPromise]
                         = resolvedPromise :: replicate n resolvedPromise).
  { induction n as [|n IHn]; cbn; [done|]. by rewrite IHn. }
  split; [apply Es|]. split; [exact Hb|]. split; [done|]. split.
  - intros later. rewrite run_app, Er. cbn [fst snd].
    eapply prefix_lookup_Some; [exact Hb|apply run_extends_heap].
  - intros h_later h' data Hl Hd.
    by apply sign_same_payload with payload.
Qed.

(** ** The bytes of the key *)

Lemma invoke_follows_own_sign (c : Call) (this : WebSigner) (h : Heap) :
  follows_own_sign this -> follows_own_sign (invoke c this h).1.2.
Proof.
  unfold follows_own_sign. intros Hi.
  destruct c as [chunk| |reason|]; cbn.
  - destruct (write_changes_buffer_only chunk this h) as [b ->]. done.
  - unfold _resolve. destruct (signature this) eqn:E; cbn; rewrite ?E; eauto.
  - unfold _reject. destruct (signature this) eqn:E; cbn; rewrite ?E; eauto.
  - done.
Qed.

Lemma run_follows_own_sign (calls : list Call) (this : WebSigner) (h : Heap) :
  follows_own_sign this -> follows_own_sign (after calls this h).
Proof.
  revert this h. induction calls as [|c rest IH]; intros this h Hi; [done|].
  rewrite after_cons. by apply IH, invoke_follows_own_sign.
Qed.

Lemma sign_calls (algorithm : string) (key : KeyOrPromise) (data : Data)
    (codec : Codec) (h : Heap) :
  exists rest,
    engine_calls (sign algorithm key data codec) h
    = (resolved_key algorithm key h).2 ++ rest
    /\ forall ev, ev ∈ rest -> exists k payload, ev = SignCall algorithm k payload.
Proof.
  unfold engine_calls, sign.
  match goal with
  | |- context [then_ (resolved_key algorithm key) ?k] => set (K := k)
  end.
  unfold then_ at 1.
  destruct (resolved_key algorithm key h) as [[[k|e|] h1] log1]; cbn.
  - destruct (K k h1) as [[s h2] log2] eqn:EK. exists log2. split; [done|].
    subst K. unfold then_, callback, crypto_subtle_sign, settled in EK.
    destruct (dataToArrayBufferView data codec h1) as [[e|view] h3].
    + injection EK as <- <- <-. intros ev Hev. by apply elem_of_nil in Hev.
    + destruct (subtle_sign algorithm k (bytes_at h3 view));
        injection EK as <- <- <-; intros ev Hev;
        apply list_elem_of_singleton in Hev; eauto.
  - exists []. split; [by rewrite app_nil_r|].
    intros ev Hev. by apply elem_of_nil in Hev.
  - exists []. split; [by rewrite app_nil_r|].
    intros ev Hev. by apply elem_of_nil in Hev.
Qed.

Lemma sign_imports_utf8 (algorithm : string) (key : KeyOrPromise)
    (k : SimpleKey.t) (data : Data) (codec : Codec) (h : Heap)
    (format : string) (input : list Z) (descriptor : AlgorithmAndHash)
    (extractable : bool) (usages : list string) :
  key = Immediate (IsSimpleKey k) \/ key = Promised (Fulfilled (IsSimpleKey k)) ->
  ImportKey format input descriptor extractable usages
    ∈ engine_calls (sign algorithm key data codec) h ->
  exists numbers,
    encode utf8 (SimpleKey.data k) = inr numbers
    /\ input = map ToUint8 numbers.
Proof.
  intros Hk Hev.
  destruct (sign_calls algorithm key data codec h) as (rest & E & Hrest).
  rewrite E in Hev. clear E.
  apply elem_of_app in Hev as [Hev|Hev].
  - assert (Er : resolved_key algorithm key h
                 = produceCryptoKey algorithm (IsSimpleKey k) h).
    { destruct Hk as [-> | ->];
        [|rewrite resolved_key_promised]; apply resolved_key_immediate. }
    rewrite Er, produceCryptoKey_simple in Hev.
    destruct (encode utf8 (SimpleKey.data k)) as [e|numbers]; cbn in Hev.
    + by apply elem_of_nil in Hev.
    + apply list_elem_of_singleton in Hev. injection Hev as _ -> _ _ _.
      by exists numbers.
  - destruct (Hrest _ Hev) as (ck & payload & E). done.
Qed.

(** C10. With a [SimpleKey], given as it is or through a promise, every
    [importKey] the engine receives carries the UTF-8 encoding of
    [key.data] (stored as bytes), whatever codec the caller gave to the
    one-shot form or to [create]; when [utf8] can encode the key, the
    one-shot chain opens with exactly that import, for every codec. *)
Theorem key_material_is_utf8_encoded (text : string) (f : SignFunction)
    (key : KeyOrPromise) (k : SimpleKey.t) :
  getSign text = inr f ->
  key = Immediate (IsSimpleKey k) \/ key = Promised (Fulfilled (IsSimpleKey k)) ->
  (forall data codec h format input descriptor extractable usages,
     ImportKey format input descriptor extractable usages
       ∈ engine_calls (call f key data codec) h ->
     exists numbers,
       encode utf8 (SimpleKey.data k) = inr numbers
       /\ input = map ToUint8 numbers)
  /\ (forall codec h0 calls p h format input descriptor extractable usages,
        signature (after calls (create f key codec h0).1 (create f key codec h0).2)
        = Follows p ->
        ImportKey format input descriptor extractable usages ∈ engine_calls p h ->
        exists numbers,
          encode utf8 (SimpleKey.data k) = inr numbers
          /\ input = map ToUint8 numbers)
  /\ (forall data codec h numbers,
        encode utf8 (SimpleKey.data k) = inr numbers ->
        exists rest,
          engine_calls (call f key data codec) h
          = ImportKey "raw" (map ToUint8 numbers)
              {| name := algorithm f; hash := hash_name (SimpleKey.algorithm k) |}
              false ["sign"; "verify"] :: rest).
Proof.
  intros Ef Hk. rewrite (getSign_inr text f Ef). cbn [call create algorithm].
  split; [|split].
  - intros data codec h format input descriptor extractable usages.
    by apply sign_imports_utf8.
  - intros codec h0 calls p h format input descriptor extractable usages Es.
    rewrite new_WebSigner_eq in Es. cbn [fst snd] in Es.
    match type of Es with
    | signature (after calls ?t ?h1) = _ =>
        pose proof (run_follows_own_sign calls t h1 I) as Hi;
        destruct (configuration_kept calls t h1) as (Ek & Ea & Ec)
    end.
    unfold follows_own_sign in Hi. rewrite Es, Ek, Ea, Ec in Hi.
    destruct Hi as [data ->]. cbn. by apply sign_imports_utf8.
  - intros data codec h numbers En.
    destruct (sign_calls (toLowerCase text) key data (default DEFAULT_CODEC codec) h)
      as (rest & -> & _).
    assert (Er : resolved_key (toLowerCase text) key h
                 = produceCryptoKey (toLowerCase text) (IsSimpleKey k) h).
    { destruct Hk as [-> | ->];
        [|rewrite resolved_key_promised]; apply resolved_key_immediate. }
    rewrite Er, produceCryptoKey_simple, En. cbn. by exists rest.
Qed.

(** ** Names *)

Lemma hmac_only (algorithm : string) :
  supported algorithm = true <-> algorithm = "hmac".
Proof.
  unfold supported. cbn. rewrite orb_false_r. apply String.eqb_eq.
Qed.

Lemma has_property_ALGORITHMS (algorithm : string) :
  has_property ALGORITHMS algorithm
  = supported algorithm || string_mem algorithm Object_prototype.
Proof.
  unfold has_property, supported. cbn [ALGORITHMS own_property Object_keys map fst].
  cbn [string_mem existsb]. rewrite String.eqb_sym.
  by destruct (algorithm =? "hmac")%string.
Qed.

(** Every spelling of a supported name, whatever its case, is accepted. *)
Lemma getSign_supported (text : string) :
  supported (toLowerCase text) = true ->
  exists f, getSign text = inr f /\ algorithm f = toLowerCase text.
Proof.
  intros Hs. unfold getSign. rewrite has_property_ALGORITHMS, Hs. cbn.
  by eexists.
Qed.

(** A name that is neither supported nor a member name of
    [Object.prototype] is refused with an error that lists the supported
    names. *)
Lemma getSign_unsupported (text : string) :
  supported (toLowerCase text) = false ->
  string_mem (toLowerCase text) Object_prototype = false ->
  getSign text = inl (Error invalid_algorithm_message)
  /\ Forall (fun known => includes known invalid_algorithm_message = true)
       (Object_keys ALGORITHMS).
Proof.
  intros Hs Hp. unfold getSign. rewrite has_property_ALGORITHMS, Hs, Hp. cbn.
  split; [done|]. by repeat constructor.
Qed.

(** C3, at the input where the code leaves it. The name [constructor] is
    not a supported algorithm, and yet [getSign] does not throw: the [in]
    test also finds the members that [ALGORITHMS] inherits from
    [Object.prototype], so a [SignFunction] bound to the algorithm
    [constructor] comes back. The same holds for every spelling of it. *)
Theorem getSign_accepts_inherited_name :
  supported (toLowerCase "constructor") = false
  /\ has_property ALGORITHMS "constructor" = true
  /\ (exists f, getSign "constructor" = inr f /\ algorithm f = "constructor")
  /\ (exists f, getSign "Constructor" = inr f /\ algorithm f = "constructor").
Proof.
  split; [done|]. split; [done|]. split; by eexists.
Qed.

Ltac not_the_name text hash Hn :=
  destruct (String.eqb_spec text hash) as [<-|?];
  [exfalso; apply Hn; cbn; tauto|].

Lemma hash_name_unknown (hash : string) :
  ~ In hash (Object_keys HASH) ->
  string_mem hash Object_prototype = false ->
  hash_name hash = VString hash.
Proof.
  intros Hn Hp. unfold hash_name, get_property.
  cbn [HASH own_property].
  not_the_name "sha256" hash Hn. not_the_name "sha-256" hash Hn.
  not_the_name "sha1" hash Hn. not_the_name "sha-1" hash Hn.
  by rewrite Hp.
Qed.

(** C4, as the code has it. The lookup is exact: [sha256] and [sha-256]
    give [sha-256], [sha1] and [sha-1] give [sha-1]; any other name that
    [Object.prototype] does not hold is passed on as it is, and so is every
    name that has an upper-case letter, [SHA256] for one. *)
Theorem hash_name_exact_lookup (hash : string) :
  string_mem hash Object_prototype = false ->
  (In hash ["sha256"; "sha-256"] -> hash_name hash = VString "sha-256")
  /\ (In hash ["sha1"; "sha-1"] -> hash_name hash = VString "sha-1")
  /\ (~ In hash ["sha256"; "sha-256"; "sha1"; "sha-1"] ->
      hash_name hash = VString hash)
  /\ (hash <> toLowerCase hash -> hash_name hash = VString hash).
Proof.
  intros Hp. split; [|split; [|split]].
  - intros [<-|[<-|[]]]; reflexivity.
  - intros [<-|[<-|[]]]; reflexivity.
  - intros Hn. by apply hash_name_unknown.
  - intros Hc. apply hash_name_unknown; [|done].
    intros [<-|[<-|[<-|[<-|[]]]]]; by apply Hc.
Qed.

End Properties.

(** * Further behaviour of the module *)

Section Behaviour.
Context `{Platform}.

(** ** The factory *)

Lemma lower_ascii_idempotent (c : ascii) :
  lower_ascii (lower_ascii c) = lower_ascii c.
Proof.
  destruct c as [[] [] [] [] [] [] [] []]; reflexivity.
Qed.

Lemma toLowerCase_idempotent (s : string) :
  toLowerCase (toLowerCase s) = toLowerCase s.
Proof.
  induction s as [|c rest IH]; cbn; [done|].
  by rewrite lower_ascii_idempotent, IH.
Qed.

(** X1. [getSign] does not see the case of the name it is given: a name and
    its lower-casing get the same answer, and the [algorithm] of the
    [SignFunction] that comes back is the lower-cased name, which
    lower-casing leaves as it is. *)
Theorem getSign_ignores_case (text : string) :
  getSign (toLowerCase text) = getSign text
  /\ (forall f, getSign text = inr f ->
        algorithm f = toLowerCase text
        /\ toLowerCase (algorithm f) = algorithm f).
Proof.
  split.
  - unfold getSign. by rewrite toLowerCase_idempotent.
  - intros f Ef. rewrite (getSign_inr text f Ef). cbn.
    split; [done|apply toLowerCase_idempotent].
Qed.

(** X2. A name whose lower-casing is neither [hmac] nor the name of a
    member of [Object.prototype] makes [getSign] throw, and the error reads
    [invalid algorithm; available algorithms are [ 'hmac' ]]. *)
Theorem getSign_refuses_unknown_name (text : string) :
  toLowerCase text <> "hmac" ->
  ~ In (toLowerCase text) Object_prototype ->
  getSign text
  = inl (Error "invalid algorithm; available algorithms are [ 'hmac' ]").
Proof.
  intros Hh Hp. unfold getSign.
  rewrite has_property_ALGORITHMS.
  replace (supported (toLowerCase text)) with false.
  - replace (string_mem (toLowerCase text) Object_prototype) with false; [done|].
    symmetry. apply not_true_iff_false. intros E. apply Hp.
    unfold string_mem in E. apply existsb_exists in E as (x & Hx & Ex).
    apply String.eqb_eq in Ex. by subst.
  - symmetry. apply not_true_iff_false. intros E. by apply hmac_only in E.
Qed.

(** ** The one-shot chain, stage by stage *)

Lemma sign_key_not_fulfilled (algorithm : string) (key : KeyOrPromise)
    (data : Data) (codec : Codec) (h h1 : Heap) (log : list Event) :
  (forall e, resolved_key algorithm key h = (Rejected e, h1, log) ->
     sign algorithm key data codec h = (Rejected e, h1, log))
  /\ (resolved_key algorithm key h = (Unsettled, h1, log) ->
      sign algorithm key data codec h = (Unsettled, h1, log)).
Proof.
  unfold sign.
  match goal with
  | |- context [then_ (resolved_key algorithm key) ?k] => set (K := k)
  end.
  unfold then_. split; [intros e|]; by intros ->.
Qed.

Lemma sign_after_key (algorithm : string) (key : KeyOrPromise) (data : Data)
    (codec : Codec) (h h1 : Heap) (k : CryptoKey) (log : list Event) :
  resolved_key algorithm key h = (Fulfilled k, h1, log) ->
  sign algorithm key data codec h
  = match dataToArrayBufferView data codec h1 with
    | (inl e, h2) => (Rejected e, h2, log)
    | (inr view, h2) =>
        (subtle_sign algorithm k (bytes_at h2 view), h2,
         log ++ [SignCall algorithm k (bytes_at h2 view)])
    end.
Proof.
  intros E. unfold sign.
  match goal with
  | |- context [then_ (resolved_key algorithm key) ?k] => set (K := k)
  end.
  unfold then_. rewrite E. subst K.
  unfold then_, callback, crypto_subtle_sign, settled.
  destruct (dataToArrayBufferView data codec h1) as [[e|view] h2].
  - by rewrite app_nil_r.
  - destruct (subtle_sign algorithm k (bytes_at h2 view)); reflexivity.
Qed.

(** Key resolution calls the engine at most once, to import. *)
Lemma resolved_key_calls (algorithm : string) (key : KeyOrPromise) (h : Heap) :
  (resolved_key algorithm key h).2 = []
  \/ exists raw descriptor,
       (resolved_key algorithm key h).2
       = [ImportKey "raw" raw descriptor false ["sign"; "verify"]]
       /\ name descriptor = algorithm.
Proof.
  assert (Hk : forall k,
    (resolved_key algorithm (Immediate k) h).2 = []
    \/ exists raw descriptor,
         (resolved_key algorithm (Immediate k) h).2
         = [ImportKey "raw" raw descriptor false ["sign"; "verify"]]
         /\ name descriptor = algorithm).
  { intros [k|k]; [by left|].
    rewrite resolved_key_immediate, produceCryptoKey_simple.
    destruct (encode utf8 (SimpleKey.data k)) as [e|numbers]; [by left|].
    right. by eexists _, _. }
  destruct key as [k|[k|e|]]; [apply Hk| |by left|by left].
  rewrite resolved_key_promised. apply Hk.
Qed.

(** X3. A key that cannot be had ends the one-shot chain before anything
    else happens. When the promise of the key is rejected, [sign] is
    rejected with the same reason, and when it never settles neither does
    [sign]; when [utf8] cannot encode the secret of a [SimpleKey], [sign] is
    rejected with that error; in these cases the engine is not called and
    the heap is left as it was. When the engine rejects the import, [sign]
    is rejected with the engine's reason and the import is the only call
    the engine has received. In no case is the payload coerced, whatever
    the codec would have done with it. *)
Theorem sign_stops_at_the_key (algorithm : string) (data : Data)
    (codec : Codec) (h : Heap) :
  (forall e,
     sign algorithm (Promised (Rejected e)) data codec h = (Rejected e, h, []))
  /\ sign algorithm (Promised Unsettled) data codec h = (Unsettled, h, [])
  /\ (forall key k e,
        key = Immediate (IsSimpleKey k)
        \/ key = Promised (Fulfilled (IsSimpleKey k)) ->
        encode utf8 (SimpleKey.data k) = inl e ->
        sign algorithm key data codec h = (Rejected e, h, []))
  /\ (forall key k numbers e,
        key = Immediate (IsSimpleKey k)
        \/ key = Promised (Fulfilled (IsSimpleKey k)) ->
        encode utf8 (SimpleKey.data k) = inr numbers ->
        subtle_importKey "raw" (map ToUint8 numbers)
          {| name := algorithm; hash := hash_name (SimpleKey.algorithm k) |}
          false ["sign"; "verify"]
        = Rejected e ->
        sign algorithm key data codec h
        = (Rejected e, h ++ [map ToUint8 numbers],
           [ImportKey "raw" (map ToUint8 numbers)
              {| name := algorithm; hash := hash_name (SimpleKey.algorithm k) |}
              false ["sign"; "verify"]])).
Proof.
  assert (Hsimple : forall key k,
    key = Immediate (IsSimpleKey k)
    \/ key = Promised (Fulfilled (IsSimpleKey k)) ->
    resolved_key algorithm key h = produceCryptoKey algorithm (IsSimpleKey k) h).
  { intros key k [-> | ->];
      [|rewrite resolved_key_promised]; apply resolved_key_immediate. }
  split; [|split; [|split]].
  - intros e. by apply sign_key_not_fulfilled.
  - by apply sign_key_not_fulfilled.
  - intros key k e Hk Ee. apply sign_key_not_fulfilled.
    by rewrite (Hsimple key k Hk), produceCryptoKey_simple, Ee.
  - intros key k numbers e Hk En Ei. apply sign_key_not_fulfilled.
    rewrite (Hsimple key k Hk), produceCryptoKey_simple, En. cbn.
    by rewrite Ei.
Qed.

(** X4. Once the key is there, the payload is coerced, and a coercion that
    throws rejects [sign] with the thrown error: the engine is not asked to
    sign, and its log holds what key resolution had put there. *)
Theorem sign_rejects_uncoercible_payload (algorithm : string)
    (key : KeyOrPromise) (data : Data) (codec : Codec) (h h1 h2 : Heap)
    (k : CryptoKey) (log : list Event) (e : Exception) :
  resolved_key algorithm key h = (Fulfilled k, h1, log) ->
  dataToArrayBufferView data codec h1 = (inl e, h2) ->
  sign algorithm key data codec h = (Rejected e, h1, log)
  /\ outcome (sign algorithm key data codec) h = Rejected e
  /\ (forall a ck payload,
        SignCall a ck payload ∉ engine_calls (sign algorithm key data codec) h).
Proof.
  intros Ek Ed.
  assert (h2 = h1) as ->.
  { destruct data as [s|numbers|view|]; cbn in Ed; try done.
    unfold encode_to_view in Ed.
    destruct (encode codec s); cbn in Ed; [|done]. by injection Ed. }
  assert (Es : sign algorithm key data codec h = (Rejected e, h1, log))
    by (by rewrite (sign_after_key _ _ _ _ _ _ _ _ Ek), Ed).
  split; [exact Es|]. unfold outcome, engine_calls. rewrite Es. cbn.
  split; [done|]. intros a ck payload Hin.
  pose proof (resolved_key_calls algorithm key h) as Hlog.
  rewrite Ek in Hlog. cbn in Hlog.
  destruct Hlog as [-> | (raw & descriptor & -> & _)].
  - by apply elem_of_nil in Hin.
  - by apply list_elem_of_singleton in Hin.
Qed.

(** X5. When the key is there and the payload can be coerced, the engine
    is asked to sign exactly these bytes, once, after whatever key
    resolution asked of it, and its answer is the answer of [sign]: a
    signature is passed on, and so is a rejection. With a prepared
    [CryptoKey] that request is the only call the engine receives:
    nothing is imported. *)
Theorem sign_passes_the_engine_answer (algorithm : string) (key : KeyOrPromise)
    (data : Data) (codec : Codec) (h : Heap) (k : CryptoKey) (payload : list Z) :
  (resolved_key algorithm key h).1.1 = Fulfilled k ->
  spec_toBytes h codec data = Some payload ->
  outcome (sign algorithm key data codec) h = subtle_sign algorithm k payload
  /\ engine_calls (sign algorithm key data codec) h
     = (resolved_key algorithm key h).2 ++ [SignCall algorithm k payload]
  /\ (key = Immediate (IsCryptoKey k) \/ key = Promised (Fulfilled (IsCryptoKey k)) ->
      engine_calls (sign algorithm key data codec) h
      = [SignCall algorithm k payload]).
Proof.
  intros Ek Ed.
  pose proof (sign_payload algorithm key data codec h payload Ed) as E.
  destruct (resolved_key_heap algorithm key h) as (Hs & Hl & _).
  unfold signed_with in E. rewrite <- Hs, <- Hl, Ek in E.
  injection E as Eo Ec. split; [exact Eo|]. split; [exact Ec|].
  intros [-> | ->]; by rewrite Ec.
Qed.

(** X6. Whatever its arguments, a one-shot chain calls the engine at most
    twice: at most one [importKey], always of a raw, non extractable key
    for [sign] and [verify] under the algorithm of the chain, and after it
    at most one [sign], under the same algorithm. *)
Theorem sign_calls_the_engine_at_most_twice (algorithm : string)
    (key : KeyOrPromise) (data : Data) (codec : Codec) (h : Heap) :
  exists imports signs,
    engine_calls (sign algorithm key data codec) h = imports ++ signs
    /\ length imports <= 1
    /\ length signs <= 1
    /\ (forall ev, ev ∈ imports ->
          exists raw descriptor,
            ev = ImportKey "raw" raw descriptor false ["sign"; "verify"]
            /\ name descriptor = algorithm)
    /\ (forall ev, ev ∈ signs ->
          exists k payload, ev = SignCall algorithm k payload).
Proof.
  exists (resolved_key algorithm key h).2.
  assert (Himports :
    length (resolved_key algorithm key h).2 <= 1
    /\ forall ev, ev ∈ (resolved_key algorithm key h).2 ->
         exists raw descriptor,
           ev = ImportKey "raw" raw descriptor false ["sign"; "verify"]
           /\ name descriptor = algorithm).
  { destruct (resolved_key_calls algorithm key h)
      as [-> | (raw & descriptor & -> & Hn)].
    - split; [cbn; lia|]. intros ev Hev. by apply elem_of_nil in Hev.
    - split; [cbn; lia|]. intros ev Hev.
      apply list_elem_of_singleton in Hev as ->. by exists raw, descriptor. }
  destruct Himports as [Hlen Himp].
  destruct (resolved_key algorithm key h) as [[[k|e|] h1] log] eqn:Ek.
  - unfold engine_calls. rewrite (sign_after_key _ _ data codec _ _ _ _ Ek).
    destruct (dataToArrayBufferView data codec h1) as [[e|view] h2]; cbn.
    + exists []. rewrite app_nil_r. repeat split; [done|cbn; lia|done|].
      intros ev Hev. by apply elem_of_nil in Hev.
    + exists [SignCall algorithm k (bytes_at h2 view)].
      repeat split; [done|cbn; lia|done|].
      intros ev Hev. apply list_elem_of_singleton in Hev as ->. by eexists _, _.
  - exists []. unfold engine_calls.
    rewrite (proj1 (sign_key_not_fulfilled _ _ data codec _ _ _) e Ek).
    cbn. rewrite app_nil_r. repeat split; [done|cbn; lia|done|].
    intros ev Hev. by apply elem_of_nil in Hev.
  - exists []. unfold engine_calls.
    rewrite (proj2 (sign_key_not_fulfilled _ _ data codec _ _ _) Ek).
    cbn. rewrite app_nil_r. repeat split; [done|cbn; lia|done|].
    intros ev Hev. by apply elem_of_nil in Hev.
Qed.

(** ** What is never written *)

Lemma sign_extends_heap (algorithm : string) (key : KeyOrPromise) (data : Data)
    (codec : Codec) (h : Heap) :
  h `prefix_of` (sign algorithm key data codec h).1.2.
Proof.
  destruct (resolved_key_heap algorithm key h) as (_ & _ & Hp).
  destruct (resolved_key algorithm key h) as [[[k|e|] h1] log] eqn:Ek;
    cbn in Hp.
  - rewrite (sign_after_key _ _ data codec _ _ _ _ Ek).
    pose proof (coercion_extends data codec h1) as Hc.
    destruct (dataToArrayBufferView data codec h1) as [[e|view] h2];
      cbn in Hc; cbn; by etrans.
  - by rewrite (proj1 (sign_key_not_fulfilled _ _ data codec _ _ _) e Ek).
  - by rewrite (proj2 (sign_key_not_fulfilled _ _ data codec _ _ _) Ek).
Qed.

(** X7. Neither the one-shot chain nor any call on a signer writes into an
    array that exists: the payload a caller passed, the buffer of another
    signer and the buffer already handed to [sign] keep their bytes; all
    that happens to the heap is that new arrays are added. *)
Theorem existing_arrays_are_never_written (h : Heap) (r : loc) (bytes : list Z) :
  h !! r = Some bytes ->
  (forall algorithm key data codec,
     (sign algorithm key data codec h).1.2 !! r = Some bytes
     /\ length h <= length (sign algorithm key data codec h).1.2)
  /\ (forall calls this,
        (run calls this h).2 !! r = Some bytes
        /\ length h <= length (run calls this h).2).
Proof.
  intros Hr. split.
  - intros algorithm key data codec.
    pose proof (sign_extends_heap algorithm key data codec h) as Hp.
    split; [by eapply prefix_lookup_Some|by apply prefix_length].
  - intros calls this. pose proof (run_extends_heap calls this h) as Hp.
    split; [by eapply prefix_lookup_Some|by apply prefix_length].
Qed.

(** ** Arrays hold bytes *)











(** ** Writes, one after the other *)

Lemma written_bytes_later (h h' : Heap) (codec : Codec) (chunk : Data) :
  h `prefix_of` h' ->
  chunk_allocated h chunk = true ->
  written_bytes h' codec chunk = written_bytes h codec chunk
  /\ chunk_allocated h' chunk = true.
Proof.
  intros Hp Ha. destruct chunk as [s|numbers|view|]; cbn in *; try done.
  apply Nat.ltb_lt in Ha.
  destruct (lookup_lt_is_Some_2 h view Ha) as [x Hx].
  rewrite (bytes_at_lookup h view x Hx).
  rewrite (bytes_at_lookup h' view x) by (by eapply prefix_lookup_Some).
  split; [done|]. apply Nat.ltb_lt.
  apply prefix_length in Hp. lia.
Qed.

(** One write on an open signer: refused by the codec, it changes nothing;
    otherwise it stores the old bytes followed by those of the chunk in a
    new buffer. *)
Lemma write_step (this : WebSigner) (h : Heap) (chunk : Data)
    (b : loc) (old : list Z) :
  _buffer this = Some b ->
  h !! b = Some old ->
  chunk_allocated h chunk = true ->
  exists b' h',
    write chunk this h
    = (write_promise (_codec this) chunk, set_buffer (Some b') this, h')
    /\ h' !! b' = Some (old ++ written_bytes h (_codec this) chunk)
    /\ h `prefix_of` h'.
Proof.
  intros Eb Hb Ha.
  destruct (coercion_error (_codec this) chunk) as [e|] eqn:Ee.
  - destruct chunk as [s|numbers|view|]; cbn in Ee; try done.
    destruct (encode (_codec this) s) as [e'|numbers] eqn:Es; [|done].
    injection Ee as ->.
    assert (Ed : dataToArrayBufferView (DString s) (_codec this) h = (inl e, h))
      by (cbn; unfold encode_to_view; by rewrite Es).
    destruct (write_coercion_throws this h (DString s) e h Ed) as [Ew _].
    exists b, h. rewrite Ew. unfold write_promise. cbn. rewrite Es, app_nil_r.
    split; [|done]. destruct this. cbn in Eb. by subst.
  - assert (Hspec : exists view h1,
      dataToArrayBufferView chunk (_codec this) h = (inr view, h1)
      /\ h1 !! view = Some (written_bytes h (_codec this) chunk)
      /\ h `prefix_of` h1).
    { destruct chunk as [s|numbers|view|]; cbn in *.
      - unfold encode_to_view.
        destruct (encode (_codec this) s) as [e|numbers]; [done|].
        exists (length h), (h ++ [map ToUint8 numbers]).
        split; [done|].
        split; [by rewrite list_lookup_middle|by apply prefix_app_r].
      - exists (length h), (h ++ [map ToUint8 numbers]).
        split; [done|].
        split; [by rewrite list_lookup_middle|by apply prefix_app_r].
      - apply Nat.ltb_lt in Ha.
        destruct (lookup_lt_is_Some_2 h view Ha) as [x Hx].
        exists view, h. by rewrite (bytes_at_lookup h view x Hx).
      - exists (length h), (h ++ [[]]).
        split; [done|].
        split; [by rewrite list_lookup_middle|by apply prefix_app_r]. }
    destruct Hspec as (view & h1 & Ev & Hv & Hp).
    assert (Hb1 : h1 !! b = Some old) by (by eapply prefix_lookup_Some).
    exists (length h1),
      (h1 ++ [old ++ written_bytes h (_codec this) chunk]).
    unfold write, bind, write_promise. rewrite Ev, Eb, Ee.
    rewrite concat_allocated by (eapply lookup_lt_Some; eassumption).
    rewrite (bytes_at_lookup _ _ _ Hb1), (bytes_at_lookup _ _ _ Hv).
    split; [done|]. split; [by rewrite list_lookup_middle|].
    etrans; [exact Hp|by apply prefix_app_r].
Qed.

Lemma writes_step_by_step (chunks : list Data) :
  forall (this : WebSigner) (h : Heap) (b : loc) (old : list Z),
    _buffer this = Some b ->
    h !! b = Some old ->
    forallb (chunk_allocated h) chunks = true ->
    exists b' h',
      run (map CallWrite chunks) this h
      = (map (write_promise (_codec this)) chunks,
         set_buffer (Some b') this, h')
      /\ h' !! b'
         = Some (old ++ concat (map (written_bytes h (_codec this)) chunks))
      /\ h `prefix_of` h'.
Proof.
  induction chunks as [|c rest IH]; intros this h b old Eb Hb Ha.
  - exists b, h. cbn. rewrite app_nil_r.
    split; [|done]. destruct this. cbn in Eb. by subst.
  - cbn in Ha. apply andb_prop in Ha as [Hc Hrest].
    destruct (write_step this h c b old Eb Hb Hc) as (b1 & h1 & Ew & Hb1 & Hp1).
    assert (Hrest1 : forallb (chunk_allocated h1) rest = true).
    { apply forallb_forall. intros x Hx.
      rewrite forallb_forall in Hrest.
      by apply (written_bytes_later h h1 (_codec this) x Hp1), Hrest. }
    destruct (IH (set_buffer (Some b1) this) h1 b1 _ eq_refl Hb1 Hrest1)
      as (b' & h' & Er & Hb' & Hp').
    exists b', h'. cbn [map run invoke]. rewrite Ew, Er.
    split; [done|]. split; [|by etrans].
    rewrite Hb'. cbn [concat _codec set_buffer]. rewrite <- app_assoc.
    do 4 f_equal. apply map_ext_in. intros x Hx.
    rewrite forallb_forall in Hrest.
    by apply (written_bytes_later h h1 (_codec this) x Hp1), Hrest.
Qed.

(** X9. On an open signer, a sequence of writes ends with a buffer that
    holds what was accumulated before, followed by the bytes of the chunks
    in the order of the calls; a chunk the codec refuses is skipped, and it
    is the only kind of write whose promise is rejected, with the error of
    the codec. *)
Theorem writes_accumulate_in_order (chunks : list Data) (this : WebSigner)
    (h : Heap) (b : loc) (old : list Z) :
  _buffer this = Some b ->
  h !! b = Some old ->
  forallb (chunk_allocated h) chunks = true ->
  exists b',
    _buffer (after (map CallWrite chunks) this h) = Some b'
    /\ (run (map CallWrite chunks) this h).2 !! b'
       = Some (old ++ concat (map (written_bytes h (_codec this)) chunks))
    /\ (run (map CallWrite chunks) this h).1.1
       = map (write_promise (_codec this)) chunks
    /\ signature (after (map CallWrite chunks) this h) = signature this.
Proof.
  intros Eb Hb Ha.
  destruct (writes_step_by_step chunks this h b old Eb Hb Ha)
    as (b' & h' & Er & Hb' & _).
  exists b'. unfold after. rewrite Er. by cbn.
Qed.

(** X10. [abort] rejects [signature] and nothing else: the buffer stays,
    the writes that follow are accepted and go on accumulating, and [close]
    after them releases the buffer without changing the rejection. *)
Theorem abort_leaves_the_signer_open (chunks : list Data) (this : WebSigner)
    (h : Heap) (b : loc) (old : list Z) (reason : Exception) :
  signature this = Pending ->
  _buffer this = Some b ->
  h !! b = Some old ->
  forallb (chunk_allocated h) chunks = true ->
  exists b',
    _buffer (after (CallAbort reason :: map CallWrite chunks) this h) = Some b'
    /\ (run (CallAbort reason :: map CallWrite chunks) this h).2 !! b'
       = Some (old ++ concat (map (written_bytes h (_codec this)) chunks))
    /\ (run (CallAbort reason :: map CallWrite chunks) this h).1.1
       = resolvedPromise :: map (write_promise (_codec this)) chunks
    /\ signature (after (CallAbort reason :: map CallWrite chunks ++ [CallClose])
                    this h)
       = RejectedWith reason
    /\ _buffer (after (CallAbort reason :: map CallWrite chunks ++ [CallClose])
                  this h)
       = None.
Proof.
  intros Hs Eb Hb Ha.
  destruct (writes_step_by_step chunks (_reject reason this) h b old)
    as (b' & h' & Er & Hb' & _).
  { unfold _reject. by rewrite Hs. }
  { done. }
  { done. }
  assert (Ec : _codec (_reject reason this) = _codec this)
    by (unfold _reject; by rewrite Hs).
  rewrite Ec in *.
  exists b'. unfold after. rewrite !run_cons. cbn [invoke abort fst snd].
  rewrite run_app, Er. cbn.
  split; [done|]. split; [done|]. split; [done|]. split; [|done].
  unfold _resolve, _reject. rewrite Hs. by cbn.
Qed.

(** X11. [start] forgets what was written: it gives the signer a new, empty
    buffer, so that after it the buffer holds the bytes of the later writes
    only; the array that was the buffer keeps its bytes but is no longer
    the signer's. *)
Theorem start_forgets_the_buffer (chunks : list Data) (this : WebSigner)
    (h : Heap) :
  forallb (chunk_allocated h) chunks = true ->
  exists b',
    _buffer (after [CallStart] this h) = Some (length h)
    /\ h !! length h = None
    /\ _buffer (after (CallStart :: map CallWrite chunks) this h) = Some b'
    /\ (run (CallStart :: map CallWrite chunks) this h).2 !! b'
       = Some (concat (map (written_bytes h (_codec this)) chunks))
    /\ (forall b old, _buffer this = Some b -> h !! b = Some old ->
          (run (CallStart :: map CallWrite chunks) this h).2 !! b = Some old).
Proof.
  intros Ha.
  assert (Ha1 : forallb (chunk_allocated (h ++ [[]])) chunks = true).
  { apply forallb_forall. intros x Hx. rewrite forallb_forall in Ha.
    by apply (written_bytes_later h (h ++ [[]]) (_codec this) x
                (prefix_app_r h h [[]] (reflexivity h))), Ha. }
  destruct (writes_step_by_step chunks (set_buffer (Some (length h)) this)
              (h ++ [[]]) (length h) [] eq_refl
              (list_lookup_middle h [] [] (length h) eq_refl) Ha1)
    as (b' & h' & Er & Hb' & Hp').
  exists b'. unfold after. rewrite !run_cons. cbn [invoke fst snd].
  change (start this h)
    with (resolvedPromise, set_buffer (Some (length h)) this, h ++ [[]]).
  cbn [fst snd]. rewrite Er. cbn [fst snd _buffer set_buffer].
  split; [done|]. split; [by apply lookup_ge_None_2|]. split; [done|]. split.
  - rewrite Hb'. cbn. f_equal. f_equal. apply map_ext_in. intros x Hx.
    rewrite forallb_forall in Ha.
    by apply (written_bytes_later h (h ++ [[]]) (_codec this) x
                (prefix_app_r h h [[]] (reflexivity h))), Ha.
  - intros b old _ Hold. eapply prefix_lookup_Some; [|exact Hp'].
    by apply lookup_app_l_Some.
Qed.

(** X12. Writing never settles [signature]: on a signer whose [signature]
    is pending, whatever is written and however often [start] is called,
    and whether the writes are accepted or rejected, an observer of
    [signature] sees nothing until [close] or [abort] is called. *)
Theorem signature_waits_for_close_or_abort (calls : list Call)
    (this : WebSigner) (h : Heap) :
  signature this = Pending ->
  forallb (fun c => is_write c || is_start c) calls = true ->
  signature (after calls this h) = Pending
  /\ forall h', delivered (signature (after calls this h)) h' = Unsettled.
Proof.
  intros Hs Hc.
  pose proof (passive_calls_keep_pending calls this h Hc) as E.
  rewrite Hs in E. rewrite E. by split.
Qed.

(** X16. A chunk the codec refuses is left out of what is signed: a signer
    made by [create], written any chunks and closed, has its [signature]
    follow the one-shot promise for a buffer holding the bytes of the
    accepted chunks only, in order, and delivers what the one-shot form
    delivers for any payload with these bytes. *)
Theorem refused_chunks_are_not_signed (text : string) (f : SignFunction)
    (key : KeyOrPromise) (codec : option Codec) (chunks : list Data)
    (h0 : Heap) :
  getSign text = inr f ->
  forallb (chunk_allocated h0) chunks = true ->
  exists buffer : loc,
    signature (after (map CallWrite chunks ++ [CallClose])
                 (create f key codec h0).1 (create f key codec h0).2)
    = Follows (call f key (DBytes buffer) codec)
    /\ (run (map CallWrite chunks ++ [CallClose])
          (create f key codec h0).1 (create f key codec h0).2).2 !! buffer
       = Some (concat (map (written_bytes h0 (default DEFAULT_CODEC codec))
                         chunks))
    /\ (forall (h_later h' : Heap) (data : Data),
          h_later !! buffer
          = Some (concat (map (written_bytes h0 (default DEFAULT_CODEC codec))
                            chunks)) ->
          spec_toBytes h' (default DEFAULT_CODEC codec) data
          = Some (concat (map (written_bytes h0 (default DEFAULT_CODEC codec))
                            chunks)) ->
          delivered
            (signature (after (map CallWrite chunks ++ [CallClose])
                          (create f key codec h0).1 (create f key codec h0).2))
            h_later
          = outcome (call f key data codec) h').
Proof.
  intros Ef Ha. rewrite (getSign_inr text f Ef). cbn [create call].
  rewrite new_WebSigner_eq. cbn [fst snd].
  set (this0 := {| _key := key; _algorithm := toLowerCase text;
                   _codec := default DEFAULT_CODEC codec;
                   _buffer := Some (length h0); signature := Pending |}).
  pose proof (prefix_app_r h0 h0 [[]] (reflexivity h0)) as Hp0.
  assert (Ha1 : forallb (chunk_allocated (h0 ++ [[]])) chunks = true).
  { apply forallb_forall. intros x Hx. rewrite forallb_forall in Ha.
    by apply (written_bytes_later h0 (h0 ++ [[]]) (_codec this0) x Hp0), Ha. }
  destruct (writes_step_by_step chunks this0 (h0 ++ [[]]) (length h0) []
              eq_refl (list_lookup_middle h0 [] [] (length h0) eq_refl) Ha1)
    as (b & h & Er & Hb & _).
  assert (Eb : concat (map (written_bytes (h0 ++ [[]]) (_codec this0)) chunks)
               = concat (map (written_bytes h0 (_codec this0)) chunks)).
  { f_equal. apply map_ext_in. intros x Hx. rewrite forallb_forall in Ha.
    by apply (written_bytes_later h0 (h0 ++ [[]]) (_codec this0) x Hp0), Ha. }
  cbn [app] in Hb. rewrite Eb in Hb. cbn [_codec this0] in Hb.
  exists b. unfold after. rewrite run_app, Er. cbn.
  split; [done|]. split; [exact Hb|].
  intros h_later h' data Hl Hd.
  by eapply sign_same_payload.
Qed.

(** X13. A write on a released buffer is rejected with the error of the
    codec when the codec refuses the chunk, for the chunk is coerced before
    the buffer is looked at; otherwise it is rejected with a [TypeError],
    the chunk having been coerced for nothing. Either way the signer is
    left as it was. *)
Theorem write_on_released_buffer (this : WebSigner) (h : Heap) (chunk : Data) :
  _buffer this = None ->
  (forall e, coercion_error (_codec this) chunk = Some e ->
     write chunk this h = (Rejected e, this, h))
  /\ (coercion_error (_codec this) chunk = None ->
      exists message h',
        write chunk this h = (Rejected (TypeError message), this, h')
        /\ h `prefix_of` h').
Proof.
  intros Eb. split.
  - intros e Ee.
    destruct chunk as [s|numbers|view|]; cbn in Ee; try done.
    destruct (encode (_codec this) s) as [e'|numbers] eqn:Es; [|done].
    injection Ee as ->.
    assert (Ed : dataToArrayBufferView (DString s) (_codec this) h = (inl e, h))
      by (cbn; unfold encode_to_view; by rewrite Es).
    by destruct (write_coercion_throws this h (DString s) e h Ed).
  - intros Ee. unfold write, bind. rewrite Eb.
    pose proof (coercion_extends chunk (_codec this) h) as Hp.
    destruct (dataToArrayBufferView chunk (_codec this) h) as [[e|view] h1] eqn:Ed.
    + destruct chunk as [s|numbers|view|]; cbn in Ee, Ed; try done.
      unfold encode_to_view in Ed.
      by destruct (encode (_codec this) s).
    + destruct (concat_null h1 view) as [message ->]. by exists message, h1.
Qed.

(** ** The empty payload and the order of concatenation *)


(** X15. [concatUint8Arrays] composes as concatenation does: joined to an
    empty array, an array is copied byte for byte, and joining three arrays
    gives the same bytes either way they are grouped. *)
Theorem concatUint8Arrays_composes (h : Heap) (a b c : loc) :
  a < length h -> b < length h -> c < length h ->
  (bytes_at h b = [] ->
   exists r h', concatUint8Arrays (Some a) b h = (inr r, h')
                /\ bytes_at h' r = bytes_at h a)
  /\ (bytes_at h a = [] ->
      exists r h', concatUint8Arrays (Some a) b h = (inr r, h')
                   /\ bytes_at h' r = bytes_at h b)
  /\ exists ab h1 r1 h2 bc h3 r2 h4,
       concatUint8Arrays (Some a) b h = (inr ab, h1)
       /\ concatUint8Arrays (Some ab) c h1 = (inr r1, h2)
       /\ concatUint8Arrays (Some b) c h = (inr bc, h3)
       /\ concatUint8Arrays (Some a) bc h3 = (inr r2, h4)
       /\ bytes_at h2 r1 = bytes_at h a ++ bytes_at h b ++ bytes_at h c
       /\ bytes_at h4 r2 = bytes_at h2 r1.
Proof.
  intros Ha Hb Hc. split; [|split].
  - intros Eb. eexists _, _. split; [by apply concat_allocated|].
    by rewrite bytes_at_new, Eb, app_nil_r.
  - intros Ea. eexists _, _. split; [by apply concat_allocated|].
    by rewrite bytes_at_new, Ea.
  - eexists _, _, _, _, _, _, _, _.
    split; [by apply concat_allocated|].
    split; [apply concat_allocated; rewrite length_app; cbn; lia|].
    split; [by apply concat_allocated|].
    split; [apply concat_allocated; rewrite length_app; cbn; lia|].
    rewrite !bytes_at_new.
    rewrite (bytes_at_old h _ c Hc), (bytes_at_old h _ a Ha).
    split; [by rewrite app_assoc|by rewrite app_assoc].
Qed.

End Behaviour.

(** * Examples on the toy platform *)

Section Examples.
#[local] Existing Instance toy_platform.

(** C4 as it is worded fails: [SHA256] lower-cases to the short spelling
    [sha256], which the specification maps to [sha-256]; the code looks
    [SHA256] itself up, does not find it and passes it on. *)
Lemma hash_name_is_case_sensitive :
  hash_name "SHA256" = VString "SHA256"
  /\ spec_hash_name "SHA256" = "sha-256"
  /\ hash_name "sha256" = VString "sha-256"
  /\ ~ (forall hash, hash_name hash = VString (spec_hash_name hash)).
Proof.
  split; [done|]. split; [done|]. split; [done|].
  intros Hall. specialize (Hall "SHA256"). discriminate Hall.
Qed.

(** The scenario of the specification: [HMAC], the key [secret], the chunks
    [hello ] and [world]. *)
Example hello_world_streamed :
  getSign "HMAC" = inr toy_hmac
  /\ delivered
       (signature
          (after [CallWrite (DString "hello "); CallWrite (DString "world"); CallClose]
             (create toy_hmac toy_key None []).1
             (create toy_hmac toy_key None []).2))
       [[]; codes "hello "; codes "hello "; codes "world"; codes "hello world"]
     = Fulfilled (codes "secret" ++ codes "hello world")
  /\ outcome (call toy_hmac toy_key (DString "hello world") None) []
     = Fulfilled (codes "secret" ++ codes "hello world")
  /\ outcome (call toy_hmac toy_key (DNumbers []) None) []
     = Fulfilled (codes "secret")
  /\ getSign "unknown-algo"
     = inl (Error "invalid algorithm; available algorithms are [ 'hmac' ]").
Proof. repeat split. Qed.

(** C7 as it is worded fails: [start] is a public method, and called after
    [close] it allocates a new buffer; the write that follows is accepted
    and its bytes are stored. *)
Lemma start_reopens_closed_signer :
  _buffer (after [CallClose] toy_signer [[]]) = None
  /\ (run [CallClose; CallStart; CallWrite (DString "x")] toy_signer [[]]).1.1 !! 2
     = Some resolvedPromise
  /\ _buffer (after [CallClose; CallStart; CallWrite (DString "x")] toy_signer [[]])
     = Some 3
  /\ (run [CallClose; CallStart; CallWrite (DString "x")] toy_signer [[]]).2 !! 3
     = Some (codes "x")
  /\ ~ (forall (later : list Call) (i : nat) (chunk : Data),
          later !! i = Some (CallWrite chunk) ->
          exists e,
            (run (CallClose :: later) toy_signer [[]]).1.1 !! S i
            = Some (Rejected e)).
Proof.
  split; [done|]. split; [done|]. split; [done|]. split; [done|].
  intros Hall.
  destruct (Hall [CallStart; CallWrite (DString "x")] 1 (DString "x") eq_refl)
    as [e He].
  discriminate He.
Qed.

Lemma streaming_signature_is_one_shot_witness :
  getSign "HMAC" = inr toy_hmac
  /\ spec_concat [] (default DEFAULT_CODEC None)
       [DString "hello "; DString "world"]
     = Some (codes "hello world")
  /\ exists buffer,
       signature
         (after (map CallWrite [DString "hello "; DString "world"] ++ [CallClose])
            (create toy_hmac toy_key None []).1
            (create toy_hmac toy_key None []).2)
       = Follows (call toy_hmac toy_key (DBytes buffer) None).
Proof.
  split; [reflexivity|]. split; [reflexivity|].
  destruct (streaming_signature_is_one_shot "HMAC" toy_hmac
              toy_key None [DString "hello "; DString "world"] []
              (codes "hello world") eq_refl eq_refl)
    as (buffer & _ & _ & Hs & _ & _).
  exists buffer. exact Hs.
Defined.

Lemma first_terminal_call_settles_witness :
  signature toy_signer = Pending
  /\ forallb (fun c => is_write c || is_start c) [CallWrite (DString "a")] = true
  /\ signature
       (after ([CallWrite (DString "a")]
               ++ CallAbort (Error "stop") :: [CallClose; CallAbort (Error "late")])
          toy_signer [[]])
     = RejectedWith (Error "stop").
Proof.
  split; [reflexivity|]. split; [reflexivity|].
  exact (proj1 (proj1 (first_terminal_call_settles toy_signer [[]]
                         [CallWrite (DString "a")]
                         [CallClose; CallAbort (Error "late")]
                         eq_refl eq_refl)
                  (Error "stop"))).
Defined.

Lemma write_coercion_failure_is_local_witness :
  _buffer toy_signer = Some 0
  /\ ([[]] : list (list Z)) !! 0 = Some []
  /\ dataToArrayBufferView (DString "") (_codec toy_signer) [[]]
     = (inl (Error "nothing to encode"), [[]])
  /\ write (DString "") toy_signer [[]]
     = (Rejected (Error "nothing to encode"), toy_signer, [[]]).
Proof.
  split; [reflexivity|]. split; [reflexivity|]. split; [reflexivity|].
  exact (proj1 (write_coercion_failure_is_local toy_signer [[]] [[]]
                  (DString "") (Error "nothing to encode") 0 []
                  eq_refl eq_refl eq_refl)).
Defined.

Lemma close_releases_buffer_witness :
  forallb (fun c => negb (is_start c))
    [CallWrite (DString "x"); CallAbort (Error "stop"); CallClose] = true
  /\ _buffer
       (after (CallClose :: [CallWrite (DString "x"); CallAbort (Error "stop"); CallClose])
          toy_signer [[]])
     = None.
Proof.
  split; [reflexivity|].
  exact (proj1 (proj2 (close_releases_buffer toy_signer [[]]
                         [CallWrite (DString "x"); CallAbort (Error "stop");
                          CallClose]
                         eq_refl))).
Defined.

Lemma key_resolution_dispatch_witness :
  encode (utf8) (SimpleKey.data secret)
  = inr (codes "secret")
  /\ resolved_key "hmac" toy_key []
     = (Fulfilled (codes "secret"), [codes "secret"],
        [ImportKey "raw" (codes "secret")
           {| name := "hmac"; hash := VString "sha-256" |} false ["sign"; "verify"]]).
Proof.
  split; [reflexivity|].
  exact (proj2 (proj2 (key_resolution_dispatch "hmac" []))
           secret (codes "secret") eq_refl).
Defined.

Lemma dataToArrayBufferView_by_case_witness :
  encode toy_codec "hi" = inr [104; 105]%Z
  /\ dataToArrayBufferView (DString "hi") toy_codec [[7%Z]]
     = (inr 1, [[7%Z]; [104; 105]%Z]).
Proof.
  split; [reflexivity|].
  exact (proj1 (proj1 (dataToArrayBufferView_by_case [[7%Z]] toy_codec)
                  "hi" [104; 105]%Z eq_refl)).
Defined.

Lemma concatUint8Arrays_fresh_copy_witness :
  0 < length [[1; 2]%Z; [3%Z]]
  /\ 1 < length [[1; 2]%Z; [3%Z]]
  /\ exists result h',
       concatUint8Arrays (Some 0) 1 [[1; 2]%Z; [3%Z]] = (inr result, h')
       /\ [[1; 2]%Z; [3%Z]] !! result = None.
Proof.
  assert (H0 : 0 < length [[1; 2]%Z; [3%Z]]) by (cbn; lia).
  assert (H1 : 1 < length [[1; 2]%Z; [3%Z]]) by (cbn; lia).
  split; [exact H0|]. split; [exact H1|].
  destruct (concatUint8Arrays_fresh_copy [[1; 2]%Z; [3%Z]] 0 1 H0 H1)
    as (result & h' & E & Hnew & _).
  exists result, h'. split; [exact E|exact Hnew].
Defined.

Lemma key_material_is_utf8_encoded_witness :
  getSign "hmac" = inr toy_hmac
  /\ (toy_key = Immediate (IsSimpleKey secret)
      \/ toy_key = Promised (Fulfilled (IsSimpleKey secret)))
  /\ encode (utf8) (SimpleKey.data secret)
     = inr (codes "secret")
  /\ exists rest,
       engine_calls (call toy_hmac toy_key (DString "payload") (Some toy_codec)) []
       = ImportKey "raw" (map ToUint8 (codes "secret"))
           {| name := algorithm toy_hmac;
              hash := hash_name (SimpleKey.algorithm secret) |}
           false ["sign"; "verify"] :: rest.
Proof.
  split; [reflexivity|]. split; [left; reflexivity|]. split; [reflexivity|].
  exact (proj2 (proj2 (key_material_is_utf8_encoded "hmac" toy_hmac toy_key
                         secret eq_refl (or_introl eq_refl)))
           (DString "payload") (Some toy_codec) [] (codes "secret") eq_refl).
Defined.

Lemma hash_name_exact_lookup_witness :
  string_mem "SHA256" Object_prototype = false
  /\ "SHA256" <> toLowerCase "SHA256"
  /\ hash_name "SHA256" = VString "SHA256".
Proof.
  assert (Hne : "SHA256" <> toLowerCase "SHA256") by discriminate.
  split; [reflexivity|]. split; [exact Hne|].
  exact (proj2 (proj2 (proj2 (hash_name_exact_lookup "SHA256" eq_refl))) Hne).
Defined.

Lemma getSign_ignores_case_witness :
  getSign "HMAC" = inr toy_hmac
  /\ algorithm toy_hmac = toLowerCase "HMAC".
Proof.
  split; [reflexivity|].
  exact (proj1 (proj2 (getSign_ignores_case "HMAC") toy_hmac eq_refl)).
Defined.

Lemma getSign_refuses_unknown_name_witness :
  toLowerCase "Unknown-Algo" <> "hmac"
  /\ ~ In (toLowerCase "Unknown-Algo") Object_prototype
  /\ getSign "Unknown-Algo"
     = inl (Error "invalid algorithm; available algorithms are [ 'hmac' ]").
Proof.
  assert (Hh : toLowerCase "Unknown-Algo" <> "hmac") by discriminate.
  assert (Hp : ~ In (toLowerCase "Unknown-Algo") Object_prototype).
  { cbn. intros Hin. repeat (destruct Hin as [Hin|Hin]; [discriminate Hin|]).
    exact Hin. }
  split; [exact Hh|]. split; [exact Hp|].
  exact (getSign_refuses_unknown_name "Unknown-Algo" Hh Hp).
Defined.

Lemma sign_stops_at_the_key_witness :
  encode toy_codec "" = inl (Error "nothing to encode")
  /\ sign (H := strict_platform) "hmac"
       (Immediate (IsSimpleKey {| SimpleKey.algorithm := "sha1";
                                  SimpleKey.data := "" |}))
       (DString "payload") toy_codec [[5%Z]]
     = (Rejected (Error "nothing to encode"), [[5%Z]], [])
  /\ sign "hmac"
       (Immediate (IsSimpleKey {| SimpleKey.algorithm := "md5";
                                  SimpleKey.data := "k" |}))
       (DString "") toy_codec []
     = (Rejected (Error "unsupported hash"), [[107%Z]],
        [ImportKey "raw" [107%Z] {| name := "hmac"; hash := VString "md5" |}
           false ["sign"; "verify"]]).
Proof.
  split; [reflexivity|]. split.
  - exact (proj1 (proj2 (proj2
             (sign_stops_at_the_key (H := strict_platform) "hmac"
                (DString "payload") toy_codec [[5%Z]])))
             _ {| SimpleKey.algorithm := "sha1"; SimpleKey.data := "" |}
             (Error "nothing to encode") (or_introl eq_refl) eq_refl).
  - exact (proj2 (proj2 (proj2
             (sign_stops_at_the_key "hmac" (DString "") toy_codec [])))
             _ {| SimpleKey.algorithm := "md5"; SimpleKey.data := "k" |}
             [107%Z] (Error "unsupported hash") (or_introl eq_refl)
             eq_refl eq_refl).
Defined.

Lemma sign_rejects_uncoercible_payload_witness :
  resolved_key "hmac" toy_key []
  = (Fulfilled (codes "secret"), [codes "secret"],
     [ImportKey "raw" (codes "secret")
        {| name := "hmac"; hash := VString "sha-256" |} false ["sign"; "verify"]])
  /\ dataToArrayBufferView (DString "") toy_codec [codes "secret"]
     = (inl (Error "nothing to encode"), [codes "secret"])
  /\ outcome (sign "hmac" toy_key (DString "") toy_codec) []
     = Rejected (Error "nothing to encode").
Proof.
  split; [reflexivity|]. split; [reflexivity|].
  exact (proj1 (proj2
           (sign_rejects_uncoercible_payload "hmac" toy_key (DString "")
              toy_codec [] [codes "secret"] [codes "secret"] (codes "secret")
              _ (Error "nothing to encode") eq_refl eq_refl))).
Defined.

Lemma sign_passes_the_engine_answer_witness :
  (resolved_key "hmac" (Immediate (IsCryptoKey [1; 2]%Z)) [[9%Z]]).1.1
  = Fulfilled [1; 2]%Z
  /\ spec_toBytes [[9%Z]] toy_codec (DBytes 0) = Some [9%Z]
  /\ engine_calls
       (sign "hmac" (Immediate (IsCryptoKey [1; 2]%Z)) (DBytes 0) toy_codec)
       [[9%Z]]
     = [SignCall "hmac" [1; 2]%Z [9%Z]].
Proof.
  split; [reflexivity|]. split; [reflexivity|].
  exact (proj2 (proj2
           (sign_passes_the_engine_answer "hmac"
              (Immediate (IsCryptoKey [1; 2]%Z)) (DBytes 0) toy_codec [[9%Z]]
              [1; 2]%Z [9%Z] eq_refl eq_refl))
           (or_introl eq_refl)).
Defined.

Lemma existing_arrays_are_never_written_witness :
  ([[1; 2]%Z] : list (list Z)) !! 0 = Some [1; 2]%Z
  /\ (run [CallWrite (DBytes 0); CallStart; CallClose] toy_signer [[1; 2]%Z]).2 !! 0
     = Some [1; 2]%Z.
Proof.
  split; [reflexivity|].
  exact (proj1 (proj2
           (existing_arrays_are_never_written [[1; 2]%Z] 0 [1; 2]%Z eq_refl)
           [CallWrite (DBytes 0); CallStart; CallClose] toy_signer)).
Defined.


Lemma writes_accumulate_in_order_witness :
  _buffer toy_signer = Some 0
  /\ ([[]] : list (list Z)) !! 0 = Some []
  /\ forallb (chunk_allocated [[]])
       [DString "a"; DString ""; DNumbers [257%Z]; DBytes 0] = true
  /\ (run (map CallWrite [DString "a"; DString ""; DNumbers [257%Z]; DBytes 0])
        toy_signer [[]]).1.1
     = [resolvedPromise; Rejected (Error "nothing to encode");
        resolvedPromise; resolvedPromise].
Proof.
  split; [reflexivity|]. split; [reflexivity|]. split; [reflexivity|].
  destruct (writes_accumulate_in_order
              [DString "a"; DString ""; DNumbers [257%Z]; DBytes 0]
              toy_signer [[]] 0 [] eq_refl eq_refl eq_refl)
    as (b' & _ & _ & Hp & _).
  exact Hp.
Defined.

Lemma abort_leaves_the_signer_open_witness :
  signature toy_signer = Pending
  /\ _buffer toy_signer = Some 0
  /\ ([[]] : list (list Z)) !! 0 = Some []
  /\ forallb (chunk_allocated [[]]) [DString "late"] = true
  /\ (run (CallAbort (Error "stop") :: map CallWrite [DString "late"])
        toy_signer [[]]).1.1
     = [resolvedPromise; resolvedPromise].
Proof.
  split; [reflexivity|]. split; [reflexivity|]. split; [reflexivity|].
  split; [reflexivity|].
  destruct (abort_leaves_the_signer_open [DString "late"] toy_signer [[]] 0 []
              (Error "stop") eq_refl eq_refl eq_refl eq_refl)
    as (b' & _ & _ & Hp & _).
  exact Hp.
Defined.

Lemma start_forgets_the_buffer_witness :
  forallb (chunk_allocated [[]]) [DString "b"] = true
  /\ _buffer (after [CallStart] (after [CallWrite (DString "a")] toy_signer [[]])
                [[]; codes "a"; codes "a"])
     = Some 3.
Proof.
  split; [reflexivity|].
  destruct (start_forgets_the_buffer [DString "b"]
              (after [CallWrite (DString "a")] toy_signer [[]])
              [[]; codes "a"; codes "a"] eq_refl)
    as (b' & Hs & _).
  exact Hs.
Defined.

Lemma signature_waits_for_close_or_abort_witness :
  signature toy_signer = Pending
  /\ forallb (fun c => is_write c || is_start c)
       [CallWrite (DString ""); CallStart; CallWrite (DString "a")] = true
  /\ signature
       (after [CallWrite (DString ""); CallStart; CallWrite (DString "a")]
          toy_signer [[]])
     = Pending.
Proof.
  split; [reflexivity|]. split; [reflexivity|].
  exact (proj1 (signature_waits_for_close_or_abort
                  [CallWrite (DString ""); CallStart; CallWrite (DString "a")]
                  toy_signer [[]] eq_refl eq_refl)).
Defined.

Lemma refused_chunks_are_not_signed_witness :
  getSign "hmac" = inr toy_hmac
  /\ forallb (chunk_allocated []) [DString "a"; DString ""; DString "b"] = true
  /\ exists buffer,
       (run (map CallWrite [DString "a"; DString ""; DString "b"] ++ [CallClose])
          (create toy_hmac toy_key (Some toy_codec) []).1
          (create toy_hmac toy_key (Some toy_codec) []).2).2 !! buffer
       = Some (codes "ab").
Proof.
  split; [reflexivity|]. split; [reflexivity|].
  destruct (refused_chunks_are_not_signed "hmac" toy_hmac toy_key
              (Some toy_codec) [DString "a"; DString ""; DString "b"] []
              eq_refl eq_refl)
    as (buffer & _ & Hb & _).
  exists buffer. exact Hb.
Defined.

Lemma write_on_released_buffer_witness :
  _buffer (after [CallClose] toy_signer [[]]) = None
  /\ coercion_error (_codec (after [CallClose] toy_signer [[]])) (DString "")
     = Some (Error "nothing to encode")
  /\ write (DString "") (after [CallClose] toy_signer [[]]) [[]]
     = (Rejected (Error "nothing to encode"),
        after [CallClose] toy_signer [[]], [[]]).
Proof.
  split; [reflexivity|]. split; [reflexivity|].
  exact (proj1 (write_on_released_buffer (after [CallClose] toy_signer [[]])
                  [[]] (DString "") eq_refl)
           (Error "nothing to encode") eq_refl).
Defined.


Lemma concatUint8Arrays_composes_witness :
  0 < length [[1%Z]; []; [2; 3]%Z]
  /\ 1 < length [[1%Z]; []; [2; 3]%Z]
  /\ 2 < length [[1%Z]; []; [2; 3]%Z]
  /\ bytes_at [[1%Z]; []; [2; 3]%Z] 1 = []
  /\ exists r h',
       concatUint8Arrays (Some 0) 1 [[1%Z]; []; [2; 3]%Z] = (inr r, h')
       /\ bytes_at h' r = bytes_at [[1%Z]; []; [2; 3]%Z] 0.
Proof.
  assert (H0 : 0 < length [[1%Z]; []; [2; 3]%Z]) by (cbn; lia).
  assert (H1 : 1 < length [[1%Z]; []; [2; 3]%Z]) by (cbn; lia).
  assert (H2 : 2 < length [[1%Z]; []; [2; 3]%Z]) by (cbn; lia).
  split; [exact H0|]. split; [exact H1|]. split; [exact H2|].
  split; [reflexivity|].
  exact (proj1 (concatUint8Arrays_composes [[1%Z]; []; [2; 3]%Z] 0 1 2 H0 H1 H2)
           eq_refl).
Defined.

Lemma sign_calls_the_engine_at_most_twice_witness :
  exists imports signs,
    engine_calls (sign "hmac" toy_key (DString "a") toy_codec) []
    = imports ++ signs
    /\ length imports <= 1
    /\ length signs <= 1.
Proof.
  destruct (sign_calls_the_engine_at_most_twice "hmac" toy_key (DString "a")
              toy_codec [])
    as (imports & signs & E & Hi & Hs & _).
  exists imports, signs. split; [exact E|]. split; [exact Hi|exact Hs].
Defined.

End Examples.
